(** * bf2x: a Brainfuck to multi-target transpiler

    Shallow embedding of [bf2x.py] and the properties of its compilation
    pipeline:

      raw text --sanitize--> operator string --fold_runs--> tokens
               --desugar--> tokens --emit_<target>--> program text

    Python values are modelled as follows.
    - [str] is [string]; a character is an [ascii].  A character outside
      the operator set is treated by the code like any other non-operator,
      so nothing depends on how wide the character type is.
    - [int] is [Z] for token counts and indentation depths; list and string
      positions, which the code only ever counts upwards from zero, are [nat].
    - a token, the tuple [(op, n)], is a pair [string * Z].
    - subscripting ([ops[i]], [tokens[i]]) raises [IndexError] out of range,
      and a [while] loop need not terminate: both loops of the front end are
      written in an error monad, with fuel.
    - an f-string that prints a count raises [ValueError] when the count
      has more than 4300 digits: every emitter comes as the text it
      builds, with the total [dec], and as the run that can raise.
    - a line typed at the prompt is the list of its code points, so that
      [str.strip] removes every character it removes in Python. *)

From Stdlib Require Import ZArith String Ascii List Bool Arith Lia.
From Stdlib Require Import Numbers.DecimalString.
Import ListNotations.

Local Open Scope list_scope.
Local Open Scope string_scope.

(** ** Results of partial computations *)

Inductive error : Type :=
| IndexError
| KeyError
| TypeError
| ValueError
| OutOfFuel.

Inductive result (A : Type) : Type :=
| Ok (a : A)
| Raise (e : error).

Arguments Ok {A} a.
Arguments Raise {A} e.

Definition bind {A B : Type} (r : result A) (k : A -> result B) : result B :=
  match r with
  | Ok a => k a
  | Raise e => Raise e
  end.

Notation "x <- r ;; k" := (bind r (fun x => k))
  (at level 61, r at next level, right associativity).

(** [s[i]] on a string. *)
Definition char_at (s : string) (i : nat) : result ascii :=
  match String.get i s with
  | Some c => Ok c
  | None => Raise IndexError
  end.

(** [l[i]] on a list. *)
Definition item {A : Type} (l : list A) (i : nat) : result A :=
  match nth_error l i with
  | Some a => Ok a
  | None => Raise IndexError
  end.

(** ** Tokens *)

Definition token : Type := (string * Z)%type.

Definition tok_eqb (a b : token) : bool :=
  (fst a =? fst b)%string && (snd a =? snd b)%Z.

Definition one_char (c : ascii) : string := String c EmptyString.

Definition in_chars (c : ascii) (cs : string) : bool :=
  existsb (Ascii.eqb c) (list_ascii_of_string cs).

(** ** Front end *)

Definition BF_OPS : string := "><+-.,[]".

(** [sanitize]: keep the characters of [src] that are in [BF_OPS]. *)
Fixpoint sanitize (src : string) : string :=
  match src with
  | EmptyString => EmptyString
  | String c rest =>
      if in_chars c BF_OPS then String c (sanitize rest) else sanitize rest
  end.

(** The inner loop of [fold_runs]:
    [while j < n and ops[j] == c: j += 1]. *)
Fixpoint run_end (fuel : nat) (ops : string) (c : ascii) (j n : nat)
  : result nat :=
  match fuel with
  | O => Raise OutOfFuel
  | S fuel' =>
      if (j <? n)%nat then
        x <- char_at ops j ;;
        if Ascii.eqb x c then run_end fuel' ops c (j + 1) n else Ok j
      else Ok j
  end.

(** The outer loop of [fold_runs], from position [i] with the tokens
    appended so far in [out]. *)
Fixpoint fold_runs_loop (fuel : nat) (ops : string) (out : list token)
  (i n : nat) : result (list token) :=
  match fuel with
  | O => Raise OutOfFuel
  | S fuel' =>
      if (i <? n)%nat then
        c <- char_at ops i ;;
        if in_chars c "+-<>" then
          j <- run_end (S n) ops c (i + 1) n ;;
          fold_runs_loop fuel' ops (out ++ [(one_char c, Z.of_nat (j - i))])%list j n
        else
          fold_runs_loop fuel' ops (out ++ [(one_char c, 1%Z)])%list (i + 1) n
      else Ok out
  end.

Definition fold_runs (ops : string) : result (list token) :=
  let n := String.length ops in
  fold_runs_loop (S n) ops [] 0 n.

Definition LOOP_START : token := ("[", 1%Z).
Definition DEC_ONE : token := ("-", 1%Z).
Definition LOOP_END : token := ("]", 1%Z).
Definition CLR : token := ("CLR", 1%Z).

(** The test of the [if] in [desugar], with the short-circuit order of the
    Python [and] chain. *)
Definition idiom_at (tokens : list token) (i : nat) : result bool :=
  if (i + 2 <? List.length tokens)%nat then
    a <- item tokens i ;;
    if tok_eqb a LOOP_START then
      b <- item tokens (i + 1) ;;
      if tok_eqb b DEC_ONE then
        c <- item tokens (i + 2) ;;
        Ok (tok_eqb c LOOP_END)
      else Ok false
    else Ok false
  else Ok false.

Fixpoint desugar_loop (fuel : nat) (tokens out : list token) (i : nat)
  : result (list token) :=
  match fuel with
  | O => Raise OutOfFuel
  | S fuel' =>
      if (i <? List.length tokens)%nat then
        hit <- idiom_at tokens i ;;
        if hit then desugar_loop fuel' tokens (out ++ [CLR])%list (i + 3)
        else
          t <- item tokens i ;;
          desugar_loop fuel' tokens (out ++ [t])%list (i + 1)
      else Ok out
  end.

Definition desugar (tokens : list token) : result (list token) :=
  desugar_loop (S (List.length tokens)) tokens [] 0.

(** *** The peephole pass, as the specification words it

    Scanning left to right: where the window is exactly loop-start,
    decrement-by-one, loop-end, the three tokens become one clear-cell
    token and the scan resumes after the window; elsewhere the current
    token is copied and the scan advances by one. *)

Definition starts_idiom (ts : list token) : bool :=
  match ts with
  | a :: b :: c :: _ =>
      tok_eqb a LOOP_START && tok_eqb b DEC_ONE && tok_eqb c LOOP_END
  | _ => false
  end.

Inductive desugar_pass : list token -> list token -> Prop :=
| pass_done : desugar_pass [] []
| pass_collapse (rest out : list token) :
    desugar_pass rest out ->
    desugar_pass (LOOP_START :: DEC_ONE :: LOOP_END :: rest) (CLR :: out)
| pass_copy (t : token) (rest out : list token) :
    starts_idiom (t :: rest) = false ->
    desugar_pass rest out ->
    desugar_pass (t :: rest) (t :: out).

(** Some window of [ts] is the idiom. *)
Fixpoint has_idiom (ts : list token) : bool :=
  starts_idiom ts ||
  match ts with
  | [] => false
  | _ :: rest => has_idiom rest
  end.

(** How many windows of [ts] are the idiom. *)
Fixpoint idiom_count (ts : list token) : nat :=
  (if starts_idiom ts then 1 else 0) +
  match ts with
  | [] => 0
  | _ :: rest => idiom_count rest
  end.

(** The same pass as a function on the list, used to reason about the
    index loop. *)
Fixpoint collapse (ts : list token) : list token :=
  match ts with
  | [] => []
  | a :: r =>
      match r with
      | b :: c :: r' =>
          if tok_eqb a LOOP_START && tok_eqb b DEC_ONE && tok_eqb c LOOP_END
          then CLR :: collapse r'
          else a :: collapse r
      | _ => a :: collapse r
      end
  end.

(** *** Measures on token sequences *)

Definition is_run_op (op : string) : bool :=
  (op =? ">") || (op =? "<") || (op =? "+") || (op =? "-").

Definition is_single_op (op : string) : bool :=
  (op =? "[") || (op =? "]") || (op =? ".") || (op =? ",").

(** What a token contributes to the length of the operator string: its
    count if it is a move, increment or decrement, one otherwise. *)
Definition tok_weight (t : token) : Z :=
  if is_run_op (fst t) then snd t else 1%Z.

Definition weight (ts : list token) : Z :=
  fold_right (fun t acc => (tok_weight t + acc)%Z) 0%Z ts.

(** Count at least one, and exactly one on loop and I/O tokens. *)
Definition tok_ok (t : token) : bool :=
  (1 <=? snd t)%Z && (negb (is_single_op (fst t)) || (snd t =? 1)%Z).

(** [tok_ok], and count exactly one on clear-cell tokens too. *)
Definition tok_ok_clr (t : token) : bool :=
  tok_ok t && (negb (fst t =? "CLR") || (snd t =? 1)%Z).

(** ** Emitters

    Every emitter collects lines in the list [L] and returns them joined by
    a newline.  [w] appends a line as it is; [e] appends it behind the
    indentation of the current nesting depth [ind]. *)

Definition nl : string := String "010"%char EmptyString.
Definition dq : string := String "034"%char EmptyString.

(** [str(n)], as an f-string prints a count. *)
Definition dec (n : Z) : string := NilZero.string_of_int (Z.to_int n).

Fixpoint times (s : string) (k : nat) : string :=
  match k with
  | O => EmptyString
  | S k' => s ++ times s k'
  end.

(** ['    ' * ind]; a negative factor gives the empty string. *)
Definition indent (ind : Z) : string := times "    " (Z.to_nat ind).

Definition w (L : list string) (s : string) : list string :=
  (L ++ [s])%list.

Definition e (ind : Z) (L : list string) (s : string) : list string :=
  (L ++ [(indent ind ++ s)%string])%list.

(** State of the token loop of an emitter: nesting depth and lines. *)
Definition emit_state : Type := (Z * list string)%type.

(** [any(op == ',' for op, _ in tokens)] *)
Definition has_input (tokens : list token) : bool :=
  existsb (fun t => fst t =? ",") tokens.

Definition join (L : list string) : string := String.concat nl L.

(** *** Python *)

Definition step_python (st : emit_state) (t : token) : emit_state :=
  let '(ind, L) := st in
  let '(op, n) := t in
  if op =? ">" then (ind, e ind L ("dp += " ++ dec n))
  else if op =? "<" then (ind, e ind L ("dp -= " ++ dec n))
  else if op =? "+" then
    (ind, e ind L ("tape[dp] = (tape[dp] + " ++ dec n ++ ") & 255"))
  else if op =? "-" then
    (ind, e ind L ("tape[dp] = (tape[dp] - " ++ dec n ++ ") & 255"))
  else if op =? "." then
    if (n =? 1)%Z then (ind, e ind L "out.append(tape[dp])")
    else (ind, e ind L ("for _ in range(" ++ dec n ++ "): out.append(tape[dp])"))
  else if op =? "," then
    if (n =? 1)%Z then (ind, e ind L "tape[dp] = getchar()")
    else (ind, e ind L ("for _ in range(" ++ dec n ++ "): tape[dp] = getchar()"))
  else if op =? "CLR" then (ind, e ind L "tape[dp] = 0")
  else if op =? "[" then ((ind + 1)%Z, e ind L "while tape[dp] != 0:")
  else if op =? "]" then (Z.max 0 (ind - 1), L)
  else (ind, L).

Definition python_head : list string :=
  [ "import sys";
    "tape = bytearray(300000)"; "dp = 0"; "out = []";
    "";
    "def getchar():";
    "    b = sys.stdin.buffer.read(1)";
    "    return b[0] if b else 0";
    "" ].

Definition emit_python (tokens : list token) : string :=
  let '(ind, L) := fold_left step_python tokens (0%Z, python_head) in
  let L := w L "sys.stdout.buffer.write(bytes(out))" in
  let L := w L "" in
  join L.

(** *** Go *)

Definition step_go (has_in : bool) (st : emit_state) (t : token)
  : emit_state :=
  let '(ind, L) := st in
  let '(op, n) := t in
  if op =? ">" then (ind, e ind L ("dp += " ++ dec n))
  else if op =? "<" then (ind, e ind L ("dp -= " ++ dec n))
  else if op =? "+" then
    (ind, e ind L ("tape[dp] = byte(int(tape[dp]+byte(" ++ dec n ++ ")) & 255)"))
  else if op =? "-" then
    (ind, e ind L ("tape[dp] = byte(int(tape[dp]-byte(" ++ dec n ++ ")) & 255)"))
  else if op =? "." then
    if (n =? 1)%Z then (ind, e ind L "out.WriteByte(tape[dp])")
    else (ind, e ind L ("for i:=0; i<" ++ dec n ++ "; i++ { out.WriteByte(tape[dp]) }"))
  else if (op =? ",") && has_in then
    if (n =? 1)%Z then (ind, e ind L "tape[dp] = getchar()")
    else (ind, e ind L ("for i:=0; i<" ++ dec n ++ "; i++ { tape[dp] = getchar() }"))
  else if op =? "CLR" then (ind, e ind L "tape[dp] = 0")
  else if op =? "[" then ((ind + 1)%Z, e ind L "for tape[dp] != 0 {")
  else if op =? "]" then
    let ind := Z.max 1 (ind - 1) in (ind, e ind L "}")
  else (ind, L).

(** An import line, the package name between double quotes. *)
Definition go_import (pkg : string) : string := "    " ++ dq ++ pkg ++ dq.

Definition go_head (has_in : bool) : list string :=
  ([ "package main"; "";
    "import (";
    go_import "bufio" ]
  ++ (if has_in then [ go_import "io" ] else [])
  ++ [ go_import "os";
       ")"; "";
       "func main(){";
       "    tape := make([]byte, 300000)";
       "    dp := 0";
       "    out := bufio.NewWriter(os.Stdout)";
       "    defer out.Flush()" ]
  ++ (if has_in then
        [ "    in := bufio.NewReader(os.Stdin)";
          "    getchar := func() byte {";
          "        b, err := in.ReadByte()";
          "        if err != nil { if err == io.EOF { return 0 }; return 0 }";
          "        return b";
          "    }" ]
      else []))%list.

Definition emit_go (tokens : list token) : string :=
  let has_in := has_input tokens in
  let '(ind, L) := fold_left (step_go has_in) tokens (1%Z, go_head has_in) in
  let L := w L "}" in
  let L := w L "" in
  join L.

(** *** C++ *)

Definition step_cpp (has_in : bool) (st : emit_state) (t : token)
  : emit_state :=
  let '(ind, L) := st in
  let '(op, n) := t in
  if op =? ">" then (ind, e ind L ("dp += " ++ dec n ++ ";"))
  else if op =? "<" then (ind, e ind L ("dp -= " ++ dec n ++ ";"))
  else if op =? "+" then
    (ind, e ind L ("tape[dp] = (tape[dp] + " ++ dec n ++ ") & 255;"))
  else if op =? "-" then
    (ind, e ind L ("tape[dp] = (tape[dp] - " ++ dec n ++ ") & 255;"))
  else if op =? "." then
    if (n =? 1)%Z then (ind, e ind L "std::cout.put((char)tape[dp]);")
    else (ind, e ind L ("for(int i=0;i<" ++ dec n ++ ";++i) std::cout.put((char)tape[dp]);"))
  else if (op =? ",") && has_in then
    if (n =? 1)%Z then
      (ind, e ind L "int c = std::cin.get(); tape[dp] = (c==EOF?0:(unsigned char)c);")
    else
      (ind, e ind L ("for(int i=0;i<" ++ dec n ++ ";++i){ int c=std::cin.get(); tape[dp]=(c==EOF?0:(unsigned char)c); }"))
  else if op =? "CLR" then (ind, e ind L "tape[dp] = 0;")
  else if op =? "[" then ((ind + 1)%Z, e ind L "while(tape[dp] != 0){")
  else if op =? "]" then
    let ind := Z.max 1 (ind - 1) in (ind, e ind L "}")
  else (ind, L).

Definition cpp_head : list string :=
  [ "#include <iostream>";
    "int main(){";
    "    static unsigned char tape[300000] = {0};";
    "    size_t dp = 0;";
    "    std::ios::sync_with_stdio(false); std::cin.tie(nullptr);" ].

Definition emit_cpp (tokens : list token) : string :=
  let has_in := has_input tokens in
  let '(ind, L) := fold_left (step_cpp has_in) tokens (1%Z, cpp_head) in
  let L := e ind L "return 0;" in
  let L := w L "}" in
  let L := w L "" in
  join L.

(** *** C# *)

Definition step_csharp (has_in : bool) (st : emit_state) (t : token)
  : emit_state :=
  let '(ind, L) := st in
  let '(op, n) := t in
  if op =? ">" then (ind, e ind L ("dp += " ++ dec n ++ ";"))
  else if op =? "<" then (ind, e ind L ("dp -= " ++ dec n ++ ";"))
  else if op =? "+" then
    (ind, e ind L ("tape[dp] = (byte)((tape[dp] + " ++ dec n ++ ") & 255);"))
  else if op =? "-" then
    (ind, e ind L ("tape[dp] = (byte)((tape[dp] - " ++ dec n ++ ") & 255);"))
  else if op =? "." then
    if (n =? 1)%Z then (ind, e ind L "stdout.WriteByte(tape[dp]);")
    else (ind, e ind L ("for (int i=0;i<" ++ dec n ++ ";i++) stdout.WriteByte(tape[dp]);"))
  else if (op =? ",") && has_in then
    if (n =? 1)%Z then
      (ind, e ind L "int c = input.ReadByte(); tape[dp] = (byte)(c==-1?0:c);")
    else
      (ind, e ind L ("for (int i=0;i<" ++ dec n ++ ";i++) { int c = input.ReadByte(); tape[dp] = (byte)(c==-1?0:c); }"))
  else if op =? "CLR" then (ind, e ind L "tape[dp] = 0;")
  else if op =? "[" then ((ind + 1)%Z, e ind L "while (tape[dp] != 0) {")
  else if op =? "]" then
    let ind := Z.max 1 (ind - 1) in (ind, e ind L "}")
  else (ind, L).

Definition csharp_head (has_in : bool) : list string :=
  ([ "using System;";
    "using System.IO;";
    "class Program { static void Main(){";
    "    byte[] tape = new byte[300000]; int dp = 0;" ]
  ++ (if has_in then [ "    Stream input = Console.OpenStandardInput();" ]
      else [])
  ++ [ "    var stdout = Console.OpenStandardOutput();" ])%list.

Definition emit_csharp (tokens : list token) : string :=
  let has_in := has_input tokens in
  let '(ind, L) :=
    fold_left (step_csharp has_in) tokens (1%Z, csharp_head has_in) in
  let L := w L "}}" in
  let L := w L "" in
  join L.

(** *** Lua *)

Definition step_lua (st : emit_state) (t : token) : emit_state :=
  let '(ind, L) := st in
  let '(op, n) := t in
  if op =? ">" then (ind, e ind L ("dp = dp + " ++ dec n))
  else if op =? "<" then (ind, e ind L ("dp = dp - " ++ dec n))
  else if op =? "+" then
    (ind, e ind L ("tape[dp] = (tape[dp] + " ++ dec n ++ ") % 256"))
  else if op =? "-" then
    (ind, e ind L ("tape[dp] = (tape[dp] - " ++ dec n ++ ") % 256"))
  else if op =? "." then
    if (n =? 1)%Z then (ind, e ind L "io.write(string.char(tape[dp]))")
    else (ind, e ind L ("for i=1," ++ dec n ++ " do io.write(string.char(tape[dp])) end"))
  else if op =? "," then
    if (n =? 1)%Z then (ind, e ind L "tape[dp] = getchar()")
    else (ind, e ind L ("for i=1," ++ dec n ++ " do tape[dp] = getchar() end"))
  else if op =? "CLR" then (ind, e ind L "tape[dp] = 0")
  else if op =? "[" then ((ind + 1)%Z, e ind L "while tape[dp] ~= 0 do")
  else if op =? "]" then
    let ind := Z.max 0 (ind - 1) in (ind, e ind L "end")
  else (ind, L).

Definition lua_head (has_in : bool) : list string :=
  [ "local tape = {} for i=1,300000 do tape[i]=0 end";
    "local dp = 1";
    if has_in then
      "local function getchar() local c=io.read(1); if c==nil then return 0 else return string.byte(c) end end"
    else
      "local function getchar() return 0 end" ].

Definition emit_lua (tokens : list token) : string :=
  let has_in := has_input tokens in
  let '(ind, L) := fold_left step_lua tokens (0%Z, lua_head has_in) in
  let L := w L "" in
  join L.

(** *** Ruby *)

Definition step_ruby (st : emit_state) (t : token) : emit_state :=
  let '(ind, L) := st in
  let '(op, n) := t in
  if op =? ">" then (ind, e ind L ("dp += " ++ dec n))
  else if op =? "<" then (ind, e ind L ("dp -= " ++ dec n))
  else if op =? "+" then
    (ind, e ind L ("tape[dp] = (tape[dp] + " ++ dec n ++ ") & 0xFF"))
  else if op =? "-" then
    (ind, e ind L ("tape[dp] = (tape[dp] - " ++ dec n ++ ") & 0xFF"))
  else if op =? "." then
    if (n =? 1)%Z then (ind, e ind L "STDOUT.write(tape[dp].chr)")
    else (ind, e ind L (dec n ++ ".times { STDOUT.write(tape[dp].chr) }"))
  else if op =? "," then
    if (n =? 1)%Z then (ind, e ind L "tape[dp] = getchar")
    else (ind, e ind L (dec n ++ ".times { tape[dp] = getchar }"))
  else if op =? "CLR" then (ind, e ind L "tape[dp] = 0")
  else if op =? "[" then ((ind + 1)%Z, e ind L "while tape[dp] != 0")
  else if op =? "]" then
    let ind := Z.max 0 (ind - 1) in (ind, e ind L "end")
  else (ind, L).

Definition ruby_head (has_in : bool) : list string :=
  [ "tape = Array.new(300000, 0)"; "dp = 0";
    if has_in then "def getchar; c=$stdin.read(1); c ? c.ord : 0; end"
    else "def getchar; 0; end" ].

Definition emit_ruby (tokens : list token) : string :=
  let has_in := has_input tokens in
  let '(ind, L) := fold_left step_ruby tokens (0%Z, ruby_head has_in) in
  let L := w L "" in
  join L.

(** *** Rust *)

Definition step_rust (has_in : bool) (st : emit_state) (t : token)
  : emit_state :=
  let '(ind, L) := st in
  let '(op, n) := t in
  if op =? ">" then (ind, e ind L ("dp += " ++ dec n ++ ";"))
  else if op =? "<" then (ind, e ind L ("dp -= " ++ dec n ++ ";"))
  else if op =? "+" then
    (ind, e ind L ("tape[dp] = tape[dp].wrapping_add(" ++ dec n ++ ");"))
  else if op =? "-" then
    (ind, e ind L ("tape[dp] = tape[dp].wrapping_sub(" ++ dec n ++ ");"))
  else if op =? "." then
    if (n =? 1)%Z then (ind, e ind L "out.write_all(&[tape[dp]]).unwrap();")
    else (ind, e ind L ("for _ in 0.." ++ dec n ++ " { out.write_all(&[tape[dp]]).unwrap(); }"))
  else if (op =? ",") && has_in then
    if (n =? 1)%Z then (ind, e ind L "tape[dp] = getchar();")
    else (ind, e ind L ("for _ in 0.." ++ dec n ++ " { tape[dp] = getchar(); }"))
  else if op =? "CLR" then (ind, e ind L "tape[dp] = 0;")
  else if op =? "[" then ((ind + 1)%Z, e ind L "while tape[dp] != 0 {")
  else if op =? "]" then
    let ind := Z.max 1 (ind - 1) in (ind, e ind L "}")
  else (ind, L).

Definition rust_head (has_in : bool) : list string :=
  ([ "use std::io::{self, Read, Write};";
     "fn main(){";
     "    let mut tape = [0u8; 300000];";
     "    let mut dp: usize = 0;";
     "    let mut out = io::BufWriter::new(io::stdout());" ]
   ++ (if has_in then
         [ "    let mut stdin = io::stdin();";
           "    let mut buf = [0u8; 1];";
           "    let mut getchar = || -> u8 { match stdin.read(&mut buf) { Ok(1) => buf[0], _ => 0 } };" ]
       else []))%list.

Definition emit_rust (tokens : list token) : string :=
  let has_in := has_input tokens in
  let '(ind, L) :=
    fold_left (step_rust has_in) tokens (1%Z, rust_head has_in) in
  let L := e ind L "out.flush().unwrap();" in
  let L := w L "}" in
  let L := w L "" in
  join L.

(** ** Emitters, with the f-strings as the interpreter runs them

    An f-string that prints a count converts an [int] to [str], and
    CPython refuses that conversion with a [ValueError] for an integer of
    more than 4300 decimal digits.  The emitters above print every count
    with the total [dec]; the emitters below are the same code, branch for
    branch, with that refusal: a branch that holds [{n}] first converts
    [n], and the token loop stops at the first conversion that raises. *)

(** [sys.get_int_max_str_digits()], by default. *)
Definition MAX_STR_DIGITS : Z := 4300.

(** [n] has more than [MAX_STR_DIGITS] decimal digits, the sign not
    counted. *)
Definition too_long (n : Z) : bool := (10 ^ MAX_STR_DIGITS <=? Z.abs n)%Z.

(** [f"{n}"] *)
Definition fstr (n : Z) : result string :=
  if too_long n then Raise ValueError else Ok (dec n).

(** [for op, n in tokens: ...] with a body that can raise. *)
Fixpoint run_tokens (step : emit_state -> token -> result emit_state)
  (tokens : list token) (st : emit_state) : result emit_state :=
  match tokens with
  | [] => Ok st
  | t :: rest => st' <- step st t ;; run_tokens step rest st'
  end.

(** *** Python *)

Definition step_python_r (st : emit_state) (t : token) : result emit_state :=
  let '(ind, L) := st in
  let '(op, n) := t in
  if op =? ">" then (s <- fstr n ;; Ok (ind, e ind L ("dp += " ++ s)))
  else if op =? "<" then (s <- fstr n ;; Ok (ind, e ind L ("dp -= " ++ s)))
  else if op =? "+" then
    (s <- fstr n ;; Ok (ind, e ind L ("tape[dp] = (tape[dp] + " ++ s ++ ") & 255")))
  else if op =? "-" then
    (s <- fstr n ;; Ok (ind, e ind L ("tape[dp] = (tape[dp] - " ++ s ++ ") & 255")))
  else if op =? "." then
    if (n =? 1)%Z then Ok (ind, e ind L "out.append(tape[dp])")
    else (s <- fstr n ;; Ok (ind, e ind L ("for _ in range(" ++ s ++ "): out.append(tape[dp])")))
  else if op =? "," then
    if (n =? 1)%Z then Ok (ind, e ind L "tape[dp] = getchar()")
    else (s <- fstr n ;; Ok (ind, e ind L ("for _ in range(" ++ s ++ "): tape[dp] = getchar()")))
  else if op =? "CLR" then Ok (ind, e ind L "tape[dp] = 0")
  else if op =? "[" then Ok ((ind + 1)%Z, e ind L "while tape[dp] != 0:")
  else if op =? "]" then Ok (Z.max 0 (ind - 1), L)
  else Ok (ind, L).

Definition emit_python_r (tokens : list token) : result string :=
  st <- run_tokens step_python_r tokens (0%Z, python_head) ;;
  let '(ind, L) := st in
  let L := w L "sys.stdout.buffer.write(bytes(out))" in
  let L := w L "" in
  Ok (join L).

(** *** Go *)

Definition step_go_r (has_in : bool) (st : emit_state) (t : token)
  : result emit_state :=
  let '(ind, L) := st in
  let '(op, n) := t in
  if op =? ">" then (s <- fstr n ;; Ok (ind, e ind L ("dp += " ++ s)))
  else if op =? "<" then (s <- fstr n ;; Ok (ind, e ind L ("dp -= " ++ s)))
  else if op =? "+" then
    (s <- fstr n ;; Ok (ind, e ind L ("tape[dp] = byte(int(tape[dp]+byte(" ++ s ++ ")) & 255)")))
  else if op =? "-" then
    (s <- fstr n ;; Ok (ind, e ind L ("tape[dp] = byte(int(tape[dp]-byte(" ++ s ++ ")) & 255)")))
  else if op =? "." then
    if (n =? 1)%Z then Ok (ind, e ind L "out.WriteByte(tape[dp])")
    else (s <- fstr n ;; Ok (ind, e ind L ("for i:=0; i<" ++ s ++ "; i++ { out.WriteByte(tape[dp]) }")))
  else if (op =? ",") && has_in then
    if (n =? 1)%Z then Ok (ind, e ind L "tape[dp] = getchar()")
    else (s <- fstr n ;; Ok (ind, e ind L ("for i:=0; i<" ++ s ++ "; i++ { tape[dp] = getchar() }")))
  else if op =? "CLR" then Ok (ind, e ind L "tape[dp] = 0")
  else if op =? "[" then Ok ((ind + 1)%Z, e ind L "for tape[dp] != 0 {")
  else if op =? "]" then
    let ind := Z.max 1 (ind - 1) in Ok (ind, e ind L "}")
  else Ok (ind, L).

Definition emit_go_r (tokens : list token) : result string :=
  let has_in := has_input tokens in
  st <- run_tokens (step_go_r has_in) tokens (1%Z, go_head has_in) ;;
  let '(ind, L) := st in
  let L := w L "}" in
  let L := w L "" in
  Ok (join L).

(** *** C++ *)

Definition step_cpp_r (has_in : bool) (st : emit_state) (t : token)
  : result emit_state :=
  let '(ind, L) := st in
  let '(op, n) := t in
  if op =? ">" then (s <- fstr n ;; Ok (ind, e ind L ("dp += " ++ s ++ ";")))
  else if op =? "<" then (s <- fstr n ;; Ok (ind, e ind L ("dp -= " ++ s ++ ";")))
  else if op =? "+" then
    (s <- fstr n ;; Ok (ind, e ind L ("tape[dp] = (tape[dp] + " ++ s ++ ") & 255;")))
  else if op =? "-" then
    (s <- fstr n ;; Ok (ind, e ind L ("tape[dp] = (tape[dp] - " ++ s ++ ") & 255;")))
  else if op =? "." then
    if (n =? 1)%Z then Ok (ind, e ind L "std::cout.put((char)tape[dp]);")
    else (s <- fstr n ;; Ok (ind, e ind L ("for(int i=0;i<" ++ s ++ ";++i) std::cout.put((char)tape[dp]);")))
  else if (op =? ",") && has_in then
    if (n =? 1)%Z then
      Ok (ind, e ind L "int c = std::cin.get(); tape[dp] = (c==EOF?0:(unsigned char)c);")
    else
      (s <- fstr n ;; Ok (ind, e ind L ("for(int i=0;i<" ++ s ++ ";++i){ int c=std::cin.get(); tape[dp]=(c==EOF?0:(unsigned char)c); }")))
  else if op =? "CLR" then Ok (ind, e ind L "tape[dp] = 0;")
  else if op =? "[" then Ok ((ind + 1)%Z, e ind L "while(tape[dp] != 0){")
  else if op =? "]" then
    let ind := Z.max 1 (ind - 1) in Ok (ind, e ind L "}")
  else Ok (ind, L).

Definition emit_cpp_r (tokens : list token) : result string :=
  let has_in := has_input tokens in
  st <- run_tokens (step_cpp_r has_in) tokens (1%Z, cpp_head) ;;
  let '(ind, L) := st in
  let L := e ind L "return 0;" in
  let L := w L "}" in
  let L := w L "" in
  Ok (join L).

(** *** C# *)

Definition step_csharp_r (has_in : bool) (st : emit_state) (t : token)
  : result emit_state :=
  let '(ind, L) := st in
  let '(op, n) := t in
  if op =? ">" then (s <- fstr n ;; Ok (ind, e ind L ("dp += " ++ s ++ ";")))
  else if op =? "<" then (s <- fstr n ;; Ok (ind, e ind L ("dp -= " ++ s ++ ";")))
  else if op =? "+" then
    (s <- fstr n ;; Ok (ind, e ind L ("tape[dp] = (byte)((tape[dp] + " ++ s ++ ") & 255);")))
  else if op =? "-" then
    (s <- fstr n ;; Ok (ind, e ind L ("tape[dp] = (byte)((tape[dp] - " ++ s ++ ") & 255);")))
  else if op =? "." then
    if (n =? 1)%Z then Ok (ind, e ind L "stdout.WriteByte(tape[dp]);")
    else (s <- fstr n ;; Ok (ind, e ind L ("for (int i=0;i<" ++ s ++ ";i++) stdout.WriteByte(tape[dp]);")))
  else if (op =? ",") && has_in then
    if (n =? 1)%Z then
      Ok (ind, e ind L "int c = input.ReadByte(); tape[dp] = (byte)(c==-1?0:c);")
    else
      (s <- fstr n ;; Ok (ind, e ind L ("for (int i=0;i<" ++ s ++ ";i++) { int c = input.ReadByte(); tape[dp] = (byte)(c==-1?0:c); }")))
  else if op =? "CLR" then Ok (ind, e ind L "tape[dp] = 0;")
  else if op =? "[" then Ok ((ind + 1)%Z, e ind L "while (tape[dp] != 0) {")
  else if op =? "]" then
    let ind := Z.max 1 (ind - 1) in Ok (ind, e ind L "}")
  else Ok (ind, L).

Definition emit_csharp_r (tokens : list token) : result string :=
  let has_in := has_input tokens in
  st <- run_tokens (step_csharp_r has_in) tokens (1%Z, csharp_head has_in) ;;
  let '(ind, L) := st in
  let L := w L "}}" in
  let L := w L "" in
  Ok (join L).

(** *** Lua *)

Definition step_lua_r (st : emit_state) (t : token) : result emit_state :=
  let '(ind, L) := st in
  let '(op, n) := t in
  if op =? ">" then (s <- fstr n ;; Ok (ind, e ind L ("dp = dp + " ++ s)))
  else if op =? "<" then (s <- fstr n ;; Ok (ind, e ind L ("dp = dp - " ++ s)))
  else if op =? "+" then
    (s <- fstr n ;; Ok (ind, e ind L ("tape[dp] = (tape[dp] + " ++ s ++ ") % 256")))
  else if op =? "-" then
    (s <- fstr n ;; Ok (ind, e ind L ("tape[dp] = (tape[dp] - " ++ s ++ ") % 256")))
  else if op =? "." then
    if (n =? 1)%Z then Ok (ind, e ind L "io.write(string.char(tape[dp]))")
    else (s <- fstr n ;; Ok (ind, e ind L ("for i=1," ++ s ++ " do io.write(string.char(tape[dp])) end")))
  else if op =? "," then
    if (n =? 1)%Z then Ok (ind, e ind L "tape[dp] = getchar()")
    else (s <- fstr n ;; Ok (ind, e ind L ("for i=1," ++ s ++ " do tape[dp] = getchar() end")))
  else if op =? "CLR" then Ok (ind, e ind L "tape[dp] = 0")
  else if op =? "[" then Ok ((ind + 1)%Z, e ind L "while tape[dp] ~= 0 do")
  else if op =? "]" then
    let ind := Z.max 0 (ind - 1) in Ok (ind, e ind L "end")
  else Ok (ind, L).

Definition emit_lua_r (tokens : list token) : result string :=
  let has_in := has_input tokens in
  st <- run_tokens step_lua_r tokens (0%Z, lua_head has_in) ;;
  let '(ind, L) := st in
  let L := w L "" in
  Ok (join L).

(** *** Ruby *)

Definition step_ruby_r (st : emit_state) (t : token) : result emit_state :=
  let '(ind, L) := st in
  let '(op, n) := t in
  if op =? ">" then (s <- fstr n ;; Ok (ind, e ind L ("dp += " ++ s)))
  else if op =? "<" then (s <- fstr n ;; Ok (ind, e ind L ("dp -= " ++ s)))
  else if op =? "+" then
    (s <- fstr n ;; Ok (ind, e ind L ("tape[dp] = (tape[dp] + " ++ s ++ ") & 0xFF")))
  else if op =? "-" then
    (s <- fstr n ;; Ok (ind, e ind L ("tape[dp] = (tape[dp] - " ++ s ++ ") & 0xFF")))
  else if op =? "." then
    if (n =? 1)%Z then Ok (ind, e ind L "STDOUT.write(tape[dp].chr)")
    else (s <- fstr n ;; Ok (ind, e ind L (s ++ ".times { STDOUT.write(tape[dp].chr) }")))
  else if op =? "," then
    if (n =? 1)%Z then Ok (ind, e ind L "tape[dp] = getchar")
    else (s <- fstr n ;; Ok (ind, e ind L (s ++ ".times { tape[dp] = getchar }")))
  else if op =? "CLR" then Ok (ind, e ind L "tape[dp] = 0")
  else if op =? "[" then Ok ((ind + 1)%Z, e ind L "while tape[dp] != 0")
  else if op =? "]" then
    let ind := Z.max 0 (ind - 1) in Ok (ind, e ind L "end")
  else Ok (ind, L).

Definition emit_ruby_r (tokens : list token) : result string :=
  let has_in := has_input tokens in
  st <- run_tokens step_ruby_r tokens (0%Z, ruby_head has_in) ;;
  let '(ind, L) := st in
  let L := w L "" in
  Ok (join L).

(** *** Rust *)

Definition step_rust_r (has_in : bool) (st : emit_state) (t : token)
  : result emit_state :=
  let '(ind, L) := st in
  let '(op, n) := t in
  if op =? ">" then (s <- fstr n ;; Ok (ind, e ind L ("dp += " ++ s ++ ";")))
  else if op =? "<" then (s <- fstr n ;; Ok (ind, e ind L ("dp -= " ++ s ++ ";")))
  else if op =? "+" then
    (s <- fstr n ;; Ok (ind, e ind L ("tape[dp] = tape[dp].wrapping_add(" ++ s ++ ");")))
  else if op =? "-" then
    (s <- fstr n ;; Ok (ind, e ind L ("tape[dp] = tape[dp].wrapping_sub(" ++ s ++ ");")))
  else if op =? "." then
    if (n =? 1)%Z then Ok (ind, e ind L "out.write_all(&[tape[dp]]).unwrap();")
    else (s <- fstr n ;; Ok (ind, e ind L ("for _ in 0.." ++ s ++ " { out.write_all(&[tape[dp]]).unwrap(); }")))
  else if (op =? ",") && has_in then
    if (n =? 1)%Z then Ok (ind, e ind L "tape[dp] = getchar();")
    else (s <- fstr n ;; Ok (ind, e ind L ("for _ in 0.." ++ s ++ " { tape[dp] = getchar(); }")))
  else if op =? "CLR" then Ok (ind, e ind L "tape[dp] = 0;")
  else if op =? "[" then Ok ((ind + 1)%Z, e ind L "while tape[dp] != 0 {")
  else if op =? "]" then
    let ind := Z.max 1 (ind - 1) in Ok (ind, e ind L "}")
  else Ok (ind, L).

Definition emit_rust_r (tokens : list token) : result string :=
  let has_in := has_input tokens in
  st <- run_tokens (step_rust_r has_in) tokens (1%Z, rust_head has_in) ;;
  let '(ind, L) := st in
  let L := e ind L "out.flush().unwrap();" in
  let L := w L "}" in
  let L := w L "" in
  Ok (join L).

(** The operators whose branch prints the count: always for a move, an
    increment or a decrement, and for an output or input token of a count
    other than one, which is never too long. *)
Definition prints_count (op : string) : bool :=
  is_run_op op || (op =? ".") || (op =? ",").

(** No count that an emitter prints is too long to print. *)
Definition counts_print (ts : list token) : bool :=
  forallb (fun t => negb (prints_count (fst t) && too_long (snd t))) ts.

(** ** Target registry

    The registry holds the emitters as the interpreter runs them. *)

Record target : Type := Target {
  t_name : string;
  t_ext : string;
  t_emitter : option (list token -> result string);
  t_runner : option (list string)
}.

Definition TARGETS : list (string * target) :=
  [ ("1", Target "python" ".py" (Some emit_python_r) (Some ["python"; "{out}"]));
    ("2", Target "go" ".go" (Some emit_go_r) (Some ["go"; "run"; "{out}"]));
    ("3", Target "cpp" ".cpp" (Some emit_cpp_r) None);
    ("4", Target "csharp" ".cs" (Some emit_csharp_r) None);
    ("5", Target "lua" ".lua" (Some emit_lua_r) None);
    ("6", Target "ruby" ".rb" (Some emit_ruby_r) None);
    ("7", Target "rust" ".rs" (Some emit_rust_r) None);
    ("0", Target "all" "" None None) ].

(** [desugar(fold_runs(sanitize(src)))], the front end as [main] runs it. *)
Definition front_end (src : string) : result (list token) :=
  ops <- Ok (sanitize src) ;;
  toks <- fold_runs ops ;;
  desugar toks.



(** ** Text search, to state what generated programs contain *)

Fixpoint starts_with (w s : string) : bool :=
  match w with
  | EmptyString => true
  | String a w' =>
      match s with
      | EmptyString => false
      | String b s' => Ascii.eqb a b && starts_with w' s'
      end
  end.

(** [w in s] *)
Fixpoint occurs (w s : string) : bool :=
  starts_with w s ||
  match s with
  | EmptyString => false
  | String _ s' => occurs w s'
  end.

(** The stdin-reading declarations and calls that each of the four gated
    emitters writes, under [has_in] in its head or for an input token. *)
Definition go_input_marks : list string :=
  [ "Stdin"; "NewReader"; "ReadByte"; "getchar"; "io.EOF"; dq ++ "io" ++ dq ].

Definition cpp_input_marks : list string :=
  [ "cin.get"; "EOF" ].

Definition csharp_input_marks : list string :=
  [ "OpenStandardInput"; "ReadByte"; "input" ].

Definition rust_input_marks : list string :=
  [ "stdin"; "getchar"; ".read(" ].

Definition none_occurs (marks : list string) (text : string) : bool :=
  forallb (fun m => negb (occurs m text)) marks.

(** Characters that separate the fixed pieces of a generated line: the
    blanks of the indentation, the line break, and what [dec] prints. *)
Definition sepc (c : ascii) : bool :=
  in_chars c (" " ++ nl ++ "-0123456789").

Fixpoint all_chars (p : ascii -> bool) (s : string) : bool :=
  match s with
  | EmptyString => true
  | String c s' => p c && all_chars p s'
  end.

(** A non-empty word with no separator in it. *)
Definition clean (w : string) : bool :=
  negb (w =? "") && all_chars (fun c => negb (sepc c)) w.

(** Nesting depth after the token loop of an emitter, started at depth
    [ind] with lines [L]. *)
Definition depth_after (step : emit_state -> token -> emit_state)
  (ind : Z) (L : list string) (tokens : list token) : Z :=
  fst (fold_left step tokens (ind, L)).

(** ** Reading tokens back

    Vocabulary for the round trips of the front end: what a token stands
    for in the operator string, and the idiom a clear-cell token stands
    for. *)

(** The operator of a token, written count times. *)
Definition expand_tok (t : token) : string :=
  times (fst t) (Z.to_nat (snd t)).

Definition expand (ts : list token) : string :=
  fold_right (fun t acc => expand_tok t ++ acc) EmptyString ts.

(** Every clear-cell token of count one put back as the idiom. *)
Definition resugar (ts : list token) : list token :=
  flat_map (fun t => if tok_eqb t CLR
                     then [LOOP_START; DEC_ONE; LOOP_END] else [t]) ts.

(** The operator of the last token, if any. *)
Definition last_op (ts : list token) : option string :=
  match rev ts with
  | [] => None
  | t :: _ => Some (fst t)
  end.

(** No two neighbours are tokens of the same move, increment or decrement
    operator: every run is in one token. *)
Fixpoint runs_maximal (ts : list token) : bool :=
  match ts with
  | [] => true
  | a :: rest =>
      match rest with
      | [] => true
      | b :: _ => negb (is_run_op (fst a) && (fst a =? fst b))
      end && runs_maximal rest
  end.

(** The nine operators that the emitters test for. *)
Definition known_op (op : string) : bool :=
  is_run_op op || is_single_op op || (op =? "CLR").

(** Loop tokens are balanced, seen from nesting depth [d]. *)
Fixpoint balanced_from (d : Z) (ts : list token) : bool :=
  match ts with
  | [] => (d =? 0)%Z
  | t :: rest =>
      if fst t =? "[" then balanced_from (d + 1) rest
      else if fst t =? "]" then (0 <? d)%Z && balanced_from (d - 1) rest
      else balanced_from d rest
  end.

Definition balanced (ts : list token) : bool := balanced_from 0 ts.

(** What a token does to the nesting depth, for an emitter with the given
    floor. *)
Definition depth_effect (floor ind : Z) (op : string) : Z :=
  if op =? "[" then (ind + 1)%Z
  else if op =? "]" then Z.max floor (ind - 1)
  else ind.

(** What the Lua and the Ruby emitter write to read standard input when
    there is an input token; without one their [getchar] is a stub. *)
Definition lua_input_marks : list string := [ "io.read"; "string.byte" ].

Definition ruby_input_marks : list string := [ "$stdin"; ".ord" ].

(** ** Front of the program: choice of target, file names, commands *)

(** A line typed at the prompt can hold any character, and which ones
    [str.strip] removes matters: such a line is the list of its code
    points. *)
Definition utext : Type := list N.

Definition code_points (s : string) : utext :=
  map N_of_ascii (list_ascii_of_string s).

(** [str.isspace] of one character, the white space that [str.strip]
    removes: the characters of general category Zs or of bidirectional
    class WS, B or S. *)
Definition is_space (c : N) : bool :=
  ((9 <=? c) && (c <=? 13) || (28 <=? c) && (c <=? 32) ||
   (c =? 133) || (c =? 160) || (c =? 5760) ||
   (8192 <=? c) && (c <=? 8202) ||
   (c =? 8232) || (c =? 8233) || (c =? 8239) || (c =? 8287) ||
   (c =? 12288))%N.

Fixpoint lstrip (s : utext) : utext :=
  match s with
  | [] => []
  | c :: rest => if is_space c then lstrip rest else s
  end.

Fixpoint rstrip (s : utext) : utext :=
  match s with
  | [] => []
  | c :: rest =>
      match rstrip rest with
      | [] => if is_space c then [] else [c]
      | r => c :: r
      end
  end.

(** [s.strip()] *)
Definition strip (s : utext) : utext := rstrip (lstrip s).

Fixpoint utext_eqb (a b : utext) : bool :=
  match a, b with
  | [], [] => true
  | x :: a', y :: b' => (x =? y)%N && utext_eqb a' b'
  | _, _ => false
  end.

(** [c in TARGETS] *)
Definition in_targets (c : string) : bool :=
  existsb (fun kt => fst kt =? c) TARGETS.

(** The key of [TARGETS] that the text [c] is, if it is one. *)
Definition key_of (c : utext) : option string :=
  find (fun k => utext_eqb (code_points k) c) (map fst TARGETS).

(** [pick_target], on the lines that [input] will return.  Running out of
    lines is the [EOFError] of [input], here [None].  The string returned
    is the stripped line, which is then a key. *)
Fixpoint pick_target (lines : list utext) : option string :=
  match lines with
  | [] => None
  | l :: rest =>
      match key_of (strip l) with
      | Some c => Some c
      | None => pick_target rest
      end
  end.

(** The command that [try_run] hands to [subprocess.check_call], if it
    runs one: [{out}] stands for the path of the generated file. *)
Definition try_run (cmd_tpl : option (list string)) (out_path : string)
  : option (list string) :=
  match cmd_tpl with
  | None => None
  | Some [] => None
  | Some tpl => Some (map (fun x => if x =? "{out}" then out_path else x) tpl)
  end.




Section Main.

(** [os.path.join(script_dir, name)] of [write_out]: where a file of the
    given name is written.  The directory of the script is not part of the
    model. *)
Variable path_of : string -> string.



End Main.


(** * Properties *)

(** ** Front end: the normalizer *)

(** C7. The normalizer is idempotent: normalizing a normalized string
    returns it unchanged, for every input string. *)
Theorem sanitize_idempotent :
  forall s : string, sanitize (sanitize s) = sanitize s.
Proof.
  induction s as [|c rest IH]; simpl.
  - reflexivity.
  - destruct (in_chars c BF_OPS) eqn:Hc; simpl.
    + rewrite Hc. now f_equal.
    + exact IH.
Qed.

(** ** Front end: the run-length folder *)

Lemma char_at_in_range (s : string) (i : nat) :
  (i < String.length s)%nat -> exists c, char_at s i = Ok c.
Proof.
  unfold char_at. revert i.
  induction s as [|a s IH]; simpl; intros i Hi.
  - lia.
  - destruct i as [|i]; simpl.
    + now exists a.
    + apply IH. lia.
Qed.

(** The inner loop stops, somewhere between its start and the end. *)
Lemma run_end_stops (ops : string) (c : ascii) (n : nat) :
  n = String.length ops ->
  forall fuel j, (j <= n)%nat -> (n - j < fuel)%nat ->
  exists j', run_end fuel ops c j n = Ok j' /\ (j <= j' <= n)%nat.
Proof.
  intros Hn. induction fuel as [|fuel IH]; intros j Hj Hf.
  - lia.
  - simpl. destruct (Nat.ltb_spec j n) as [Hlt|Hge].
    + destruct (char_at_in_range ops j) as [x Hx]; [lia|].
      rewrite Hx. simpl.
      destruct (Ascii.eqb x c).
      * destruct (IH (j + 1)%nat) as [j' [Hr Hb]]; [lia|lia|].
        exists j'. split; [exact Hr|lia].
      * exists j. split; [reflexivity|lia].
    + exists j. split; [reflexivity|lia].
Qed.

(** Loop-invariant rule for the outer loop of [fold_runs]: an invariant
    [Inv out i] kept by both branches holds of the returned tokens at the
    end of the string, and the loop does return. *)
Section FoldRunsInvariant.

Variable ops : string.
Variable Inv : list token -> nat -> Prop.

Let n := String.length ops.

Hypothesis Inv_run : forall out i c j,
  Inv out i -> char_at ops i = Ok c -> in_chars c "+-<>" = true ->
  (i < j <= n)%nat ->
  Inv (out ++ [(one_char c, Z.of_nat (j - i))])%list j.

Hypothesis Inv_single : forall out i c,
  Inv out i -> char_at ops i = Ok c -> in_chars c "+-<>" = false ->
  (i < n)%nat ->
  Inv (out ++ [(one_char c, 1%Z)])%list (i + 1)%nat.

Lemma fold_runs_loop_inv :
  forall fuel out i, (i <= n)%nat -> (n - i < fuel)%nat -> Inv out i ->
  exists out', fold_runs_loop fuel ops out i n = Ok out' /\ Inv out' n.
Proof.
  induction fuel as [|fuel IH]; intros out i Hi Hf HI.
  - lia.
  - cbn [fold_runs_loop]. destruct (Nat.ltb_spec i n) as [Hlt|Hge].
    + destruct (char_at_in_range ops i) as [c Hc]; [exact Hlt|].
      rewrite Hc. cbn [bind].
      destruct (in_chars c "+-<>") eqn:Hrun.
      * destruct (run_end_stops ops c n eq_refl (S n) (i + 1)%nat)
          as [j [Hj Hb]]; [lia|lia|].
        rewrite Hj. cbn [bind].
        apply IH; [lia|lia|].
        apply Inv_run; [exact HI|exact Hc|exact Hrun|lia].
      * apply IH; [lia|lia|].
        apply Inv_single; assumption.
    + exists out. split; [reflexivity|].
      replace n with i by lia. exact HI.
Qed.

Lemma fold_runs_inv :
  Inv [] 0%nat -> exists toks, fold_runs ops = Ok toks /\ Inv toks n.
Proof.
  intros H0. unfold fold_runs. fold n.
  apply fold_runs_loop_inv; [lia|lia|exact H0].
Qed.

End FoldRunsInvariant.

Lemma weight_app (a b : list token) :
  weight (a ++ b)%list = (weight a + weight b)%Z.
Proof.
  unfold weight. induction a as [|t a IH]; simpl.
  - reflexivity.
  - rewrite IH. lia.
Qed.

Lemma is_run_op_one_char (c : ascii) :
  is_run_op (one_char c) = in_chars c "+-<>".
Proof.
  unfold is_run_op, in_chars, one_char. simpl.
  rewrite orb_false_r.
  replace (String c "" =? ">") with (Ascii.eqb c ">"%char)
    by (simpl; now destruct (Ascii.eqb c ">"%char)).
  replace (String c "" =? "<") with (Ascii.eqb c "<"%char)
    by (simpl; now destruct (Ascii.eqb c "<"%char)).
  replace (String c "" =? "+") with (Ascii.eqb c "+"%char)
    by (simpl; now destruct (Ascii.eqb c "+"%char)).
  replace (String c "" =? "-") with (Ascii.eqb c "-"%char)
    by (simpl; now destruct (Ascii.eqb c "-"%char)).
  destruct (Ascii.eqb c ">"%char), (Ascii.eqb c "<"%char),
    (Ascii.eqb c "+"%char), (Ascii.eqb c "-"%char); reflexivity.
Qed.

Lemma is_single_op_one_char (c : ascii) :
  in_chars c "+-<>" = true -> is_single_op (one_char c) = false.
Proof.
  unfold is_single_op, in_chars, one_char. simpl.
  rewrite orb_false_r. intros H.
  repeat rewrite orb_true_iff in H.
  repeat rewrite Ascii.eqb_eq in H.
  destruct H as [H|[H|[H|H]]]; subst c; reflexivity.
Qed.

(** C5. Folding conserves length: the counts of the move, increment and
    decrement tokens plus the number of all other tokens add up to the
    length of the operator string.  It holds of every string, hence of
    every normalized one. *)
Theorem fold_runs_conserves_length :
  forall ops : string,
  exists toks, fold_runs ops = Ok toks /\
    weight toks = Z.of_nat (String.length ops).
Proof.
  intros ops.
  apply (fold_runs_inv ops (fun out i => weight out = Z.of_nat i)).
  - intros out i c j HI _ Hrun Hj.
    rewrite weight_app, HI. unfold weight. simpl.
    unfold tok_weight. simpl. rewrite is_run_op_one_char, Hrun. lia.
  - intros out i c HI _ Hrun _.
    rewrite weight_app, HI. unfold weight. simpl.
    unfold tok_weight. simpl. rewrite is_run_op_one_char, Hrun. lia.
  - reflexivity.
Qed.

Lemma fold_runs_tokens_ok (ops : string) :
  exists toks, fold_runs ops = Ok toks /\
    Forall (fun t => tok_ok t = true /\ String.length (fst t) = 1%nat) toks.
Proof.
  destruct (fold_runs_inv ops
    (fun out _ =>
       Forall (fun t => tok_ok t = true /\ String.length (fst t) = 1%nat) out))
    as [toks [Hr HI]].
  - intros out i c j HI _ Hrun Hj.
    apply Forall_app. split; [exact HI|].
    constructor; [|constructor]. split; [|reflexivity].
    unfold tok_ok. cbn [fst snd].
    rewrite (is_single_op_one_char c Hrun). simpl.
    rewrite andb_true_r. apply Z.leb_le. lia.
  - intros out i c HI _ _ _.
    apply Forall_app. split; [exact HI|].
    constructor; [|constructor]. split; [|reflexivity].
    unfold tok_ok. cbn [fst snd]. simpl. apply orb_true_r.
  - constructor.
  - exists toks. split; assumption.
Qed.

(** ** Front end: the peephole desugarer *)

Lemma tok_eqb_eq (a b : token) : tok_eqb a b = true <-> a = b.
Proof.
  unfold tok_eqb. destruct a as [oa na], b as [ob nb]. cbn [fst snd].
  rewrite andb_true_iff, String.eqb_eq, Z.eqb_eq.
  split; [intros [-> ->]; reflexivity|intros H; inversion H; auto].
Qed.

Lemma skipn_item {A : Type} (l : list A) (i : nat) :
  (i < List.length l)%nat ->
  exists a, item l i = Ok a /\ skipn i l = a :: skipn (S i) l.
Proof.
  unfold item. revert i.
  induction l as [|x l IH]; simpl; intros i Hi.
  - lia.
  - destruct i as [|i]; simpl.
    + now exists x.
    + apply IH. lia.
Qed.

(** The index test of the loop is the window test at the current suffix. *)
Lemma idiom_at_skipn (tokens : list token) (i : nat) :
  idiom_at tokens i = Ok (starts_idiom (skipn i tokens)).
Proof.
  unfold idiom_at.
  destruct (Nat.ltb_spec (i + 2) (List.length tokens)) as [Hlt|Hge].
  - destruct (skipn_item tokens i) as [a [Ha Sa]]; [lia|].
    destruct (skipn_item tokens (S i)) as [b [Hb Sb]]; [lia|].
    destruct (skipn_item tokens (S (S i))) as [c [Hc Sc]]; [lia|].
    rewrite Sa, Sb, Sc. cbn [starts_idiom].
    rewrite Ha. cbn [bind].
    replace (i + 1)%nat with (S i) by lia.
    replace (i + 2)%nat with (S (S i)) by lia.
    destruct (tok_eqb a LOOP_START); [|reflexivity].
    rewrite Hb. cbn [bind andb].
    destruct (tok_eqb b DEC_ONE); [|reflexivity].
    rewrite Hc. reflexivity.
  - assert (Hlen : (List.length (skipn i tokens) <= 2)%nat)
      by (rewrite length_skipn; lia).
    destruct (skipn i tokens) as [|a [|b [|c r]]]; simpl in *;
      try reflexivity; lia.
Qed.

Lemma collapse_hit (ts : list token) :
  starts_idiom ts = true -> collapse ts = CLR :: collapse (skipn 3 ts).
Proof.
  destruct ts as [|a [|b [|c r]]]; simpl; try discriminate.
  now intros ->.
Qed.

Lemma collapse_miss (t : token) (ts : list token) :
  starts_idiom (t :: ts) = false -> collapse (t :: ts) = t :: collapse ts.
Proof.
  destruct ts as [|b [|c r]]; simpl; try reflexivity.
  now intros ->.
Qed.

(** The index loop computes [collapse] on the part of the list not yet
    scanned, and returns. *)
Lemma desugar_loop_collapse (tokens : list token) :
  forall fuel out i,
  (i <= List.length tokens)%nat -> (List.length tokens - i < fuel)%nat ->
  desugar_loop fuel tokens out i = Ok (out ++ collapse (skipn i tokens))%list.
Proof.
  induction fuel as [|fuel IH]; intros out i Hi Hf.
  - lia.
  - cbn [desugar_loop].
    destruct (Nat.ltb_spec i (List.length tokens)) as [Hlt|Hge].
    + rewrite idiom_at_skipn. cbn [bind].
      destruct (skipn_item tokens i Hlt) as [t [Ht St]].
      destruct (starts_idiom (skipn i tokens)) eqn:Hhit.
      * assert (Hlen : (3 <= List.length (skipn i tokens))%nat).
        { destruct (skipn i tokens) as [|a [|b [|c r]]];
            simpl in *; try discriminate; lia. }
        rewrite length_skipn in Hlen.
        rewrite IH by lia.
        rewrite (collapse_hit _ Hhit), skipn_skipn.
        replace (3 + i)%nat with (i + 3)%nat by lia.
        now rewrite <- app_assoc.
      * rewrite Ht. cbn [bind].
        rewrite IH by lia.
        rewrite St in Hhit |- *.
        rewrite (collapse_miss _ _ Hhit).
        replace (i + 1)%nat with (S i) by lia.
        now rewrite <- app_assoc.
    + rewrite skipn_all2 by lia. now rewrite app_nil_r.
Qed.

Lemma desugar_collapse (tokens : list token) :
  desugar tokens = Ok (collapse tokens).
Proof.
  unfold desugar. rewrite desugar_loop_collapse by lia. reflexivity.
Qed.

(** Induction along the scan: the empty list, a hit, a miss. *)
Lemma scan_ind (P : list token -> Prop) :
  P [] ->
  (forall rest, P rest -> P (LOOP_START :: DEC_ONE :: LOOP_END :: rest)) ->
  (forall t rest, starts_idiom (t :: rest) = false -> P rest ->
                  P (t :: rest)) ->
  forall ts, P ts.
Proof.
  intros Hnil Hhit Hmiss ts.
  assert (H : forall k ts, (List.length ts <= k)%nat -> P ts).
  { clear ts. induction k as [|k IH]; intros ts Hk.
    - destruct ts; [exact Hnil|simpl in Hk; lia].
    - destruct ts as [|a r]; [exact Hnil|].
      destruct (starts_idiom (a :: r)) eqn:Hs.
      + destruct r as [|b [|c r']]; try discriminate.
        cbn [starts_idiom] in Hs.
        apply andb_true_iff in Hs. destruct Hs as [Hs Hc].
        apply andb_true_iff in Hs. destruct Hs as [Ha Hb].
        apply tok_eqb_eq in Ha, Hb, Hc. subst a b c.
        apply Hhit. apply IH. simpl in Hk. lia.
      + apply Hmiss; [exact Hs|]. apply IH. simpl in Hk. lia. }
  apply (H (List.length ts)). lia.
Qed.

Lemma collapse_pass (ts : list token) : desugar_pass ts (collapse ts).
Proof.
  induction ts as [|rest IH|t rest Hs IH] using scan_ind.
  - constructor.
  - rewrite collapse_hit by reflexivity. now constructor.
  - rewrite collapse_miss by exact Hs. now constructor.
Qed.

Lemma pass_functional (ts out : list token) :
  desugar_pass ts out -> out = collapse ts.
Proof.
  induction 1 as [|rest out _ IH|t rest out Hs _ IH].
  - reflexivity.
  - rewrite collapse_hit by reflexivity. simpl. now rewrite IH.
  - rewrite collapse_miss by exact Hs. now rewrite IH.
Qed.

Lemma collapse_length (ts : list token) :
  (List.length (collapse ts) <= List.length ts)%nat.
Proof.
  induction ts as [|rest IH|t rest Hs IH] using scan_ind.
  - simpl. lia.
  - rewrite collapse_hit by reflexivity. simpl in *. lia.
  - rewrite collapse_miss by exact Hs. simpl. lia.
Qed.

Lemma collapse_no_idiom (ts : list token) :
  has_idiom ts = false -> collapse ts = ts.
Proof.
  induction ts as [|t ts IH]; intros H.
  - reflexivity.
  - cbn [has_idiom] in H. apply orb_false_iff in H. destruct H as [Hs Hr].
    rewrite (collapse_miss _ _ Hs). now rewrite IH.
Qed.

(** Every window that is the idiom is collapsed: each takes two tokens off
    the length. *)
Lemma collapse_counts (ts : list token) :
  List.length ts = (List.length (collapse ts) + 2 * idiom_count ts)%nat.
Proof.
  induction ts as [|rest IH|t rest Hs IH] using scan_ind.
  - reflexivity.
  - rewrite collapse_hit by reflexivity.
    change (skipn 3 (LOOP_START :: DEC_ONE :: LOOP_END :: rest)) with rest.
    assert (Hc : idiom_count (LOOP_START :: DEC_ONE :: LOOP_END :: rest)
                 = S (idiom_count rest)).
    { cbn [idiom_count].
      replace (starts_idiom (LOOP_START :: DEC_ONE :: LOOP_END :: rest))
        with true by reflexivity.
      replace (starts_idiom (DEC_ONE :: LOOP_END :: rest)) with false
        by (destruct rest; reflexivity).
      replace (starts_idiom (LOOP_END :: rest)) with false
        by (destruct rest as [|? [|? ?]]; reflexivity).
      reflexivity. }
    rewrite Hc. cbn [List.length]. lia.
  - rewrite (collapse_miss _ _ Hs). cbn [idiom_count List.length].
    rewrite Hs. lia.
Qed.

(** C4. The desugarer is the single left-to-right, non-overlapping pass:
    it returns the one sequence [out] that the pass relates to the input,
    in which every exact loop-start, decrement-by-one, loop-end window is
    one clear-cell token (each takes two tokens off the length) and every
    other token is copied; [out] is never longer than the input; an input
    none of whose windows is the exact triple is returned unchanged, as is
    the window with a decrement of two. *)
Theorem desugar_single_pass :
  (forall ts : list token,
     exists out, desugar ts = Ok out /\
       desugar_pass ts out /\
       (forall out', desugar_pass ts out' -> out' = out) /\
       List.length ts = (List.length out + 2 * idiom_count ts)%nat /\
       (List.length out <= List.length ts)%nat /\
       (has_idiom ts = false -> out = ts)) /\
  desugar [("[", 1%Z); ("-", 2%Z); ("]", 1%Z)] =
    Ok [("[", 1%Z); ("-", 2%Z); ("]", 1%Z)].
Proof.
  split; [|reflexivity].
  intros ts. exists (collapse ts).
  split; [apply desugar_collapse|].
  split; [apply collapse_pass|].
  split; [intros out'; apply pass_functional|].
  split; [apply collapse_counts|].
  split; [apply collapse_length|apply collapse_no_idiom].
Qed.

(** The first token of the output is a clear-cell token made by a hit, or
    the first token of the input, copied on a miss. *)
Lemma collapse_head (l : list token) :
  collapse l = [] \/
  (exists r, collapse l = CLR :: r) \/
  (exists t r, l = t :: r /\ starts_idiom l = false /\
               collapse l = t :: collapse r).
Proof.
  destruct l as [|t r]; [now left|]. right.
  destruct (starts_idiom (t :: r)) eqn:Hs.
  - left. rewrite (collapse_hit _ Hs). eauto.
  - right. exists t, r. rewrite (collapse_miss _ _ Hs). auto.
Qed.

Lemma collapse_starts_no_idiom (l : list token) :
  starts_idiom (collapse l) = false.
Proof.
  destruct (collapse_head l) as [E|[[r E]|[t [r [El [Hs E]]]]]];
    rewrite E; try reflexivity.
  - destruct r as [|b [|c r']]; reflexivity.
  - destruct (starts_idiom (t :: collapse r)) eqn:Hout; [|reflexivity].
    exfalso.
    destruct (collapse_head r) as [E1|[[r1 E1]|[b [r1 [Er [_ E1]]]]]];
      rewrite E1 in Hout.
    + discriminate.
    + destruct r1 as [|c r1]; [discriminate|]. cbn [starts_idiom] in Hout.
      replace (tok_eqb CLR DEC_ONE) with false in Hout by reflexivity.
      now rewrite andb_false_r in Hout.
    + destruct (collapse_head r1) as [E2|[[r2 E2]|[c [r2 [Er1 [_ E2]]]]]];
        rewrite E2 in Hout.
      * discriminate.
      * cbn [starts_idiom] in Hout.
        replace (tok_eqb CLR LOOP_END) with false in Hout by reflexivity.
        now rewrite andb_false_r in Hout.
      * subst l r r1. cbn [starts_idiom] in Hout, Hs. congruence.
Qed.

Lemma collapse_has_no_idiom (ts : list token) :
  has_idiom (collapse ts) = false.
Proof.
  induction ts as [|rest IH|t rest Hs IH] using scan_ind.
  - reflexivity.
  - rewrite collapse_hit by reflexivity.
    change (skipn 3 (LOOP_START :: DEC_ONE :: LOOP_END :: rest)) with rest.
    cbn [has_idiom]. rewrite IH, orb_false_r.
    destruct (collapse rest) as [|b [|c r]]; reflexivity.
  - pose proof (collapse_starts_no_idiom (t :: rest)) as Hh.
    rewrite (collapse_miss _ _ Hs) in Hh |- *.
    cbn [has_idiom]. now rewrite Hh, IH.
Qed.

(** C10. The desugarer is idempotent: a second pass over its output
    returns that output unchanged, because no window of the output is the
    loop-start, decrement-by-one, loop-end triple. *)
Theorem desugar_idempotent :
  forall ts : list token,
  exists out, desugar ts = Ok out /\ desugar out = Ok out /\
    has_idiom out = false.
Proof.
  intros ts. exists (collapse ts).
  split; [apply desugar_collapse|].
  split; [|apply collapse_has_no_idiom].
  rewrite desugar_collapse. f_equal.
  apply collapse_no_idiom, collapse_has_no_idiom.
Qed.

Lemma single_char_ok_clr (t : token) :
  tok_ok t = true -> String.length (fst t) = 1%nat -> tok_ok_clr t = true.
Proof.
  intros Hok Hlen. unfold tok_ok_clr. rewrite Hok.
  destruct t as [[|a [|b op]] n]; simpl in *; try discriminate.
  now destruct (Ascii.eqb a "C"%char).
Qed.

(** Every output token is an input token or the clear-cell token. *)
Lemma collapse_tokens (ts : list token) :
  Forall (fun t => In t ts \/ t = CLR) (collapse ts).
Proof.
  induction ts as [|rest IH|t rest Hs IH] using scan_ind.
  - constructor.
  - rewrite collapse_hit by reflexivity.
    change (skipn 3 (LOOP_START :: DEC_ONE :: LOOP_END :: rest)) with rest.
    constructor; [now right|].
    eapply Forall_impl; [|exact IH].
    intros t [H| ->]; [left; simpl; tauto|now right].
  - rewrite (collapse_miss _ _ Hs).
    constructor; [left; now left|].
    eapply Forall_impl; [|exact IH].
    intros t' [H| ->]; [left; now right|now right].
Qed.

Lemma collapse_preserves (P : token -> bool) (ts : list token) :
  P CLR = true -> forallb P ts = true -> forallb P (collapse ts) = true.
Proof.
  intros Hclr Hts. apply forallb_forall. intros t Ht.
  pose proof (collapse_tokens ts) as Hall.
  rewrite Forall_forall in Hall.
  destruct (Hall t Ht) as [Hin| ->]; [|exact Hclr].
  rewrite forallb_forall in Hts. now apply Hts.
Qed.

(** C6. Every token of the folder has count at least one, and its
    loop-start, loop-end, output and input tokens have count exactly one;
    the desugarer keeps both properties, its clear-cell tokens having count
    one; so after folding and desugaring every loop, output, input and
    clear-cell token has count one and every count is at least one. *)
Theorem counts_invariant :
  (forall ops : string,
     exists toks, fold_runs ops = Ok toks /\ forallb tok_ok toks = true) /\
  (forall ts : list token,
     forallb tok_ok ts = true ->
     exists out, desugar ts = Ok out /\ forallb tok_ok out = true) /\
  (forall src : string,
     exists out, front_end src = Ok out /\ forallb tok_ok_clr out = true).
Proof.
  split; [|split].
  - intros ops. destruct (fold_runs_tokens_ok ops) as [toks [Hr Hall]].
    exists toks. split; [exact Hr|].
    apply forallb_forall. rewrite Forall_forall in Hall.
    intros t Ht. now apply Hall.
  - intros ts Hts. exists (collapse ts).
    split; [apply desugar_collapse|].
    now apply collapse_preserves.
  - intros src. unfold front_end. cbn [bind].
    destruct (fold_runs_tokens_ok (sanitize src)) as [toks [Hr Hall]].
    rewrite Hr. cbn [bind]. exists (collapse toks).
    split; [apply desugar_collapse|].
    apply collapse_preserves; [reflexivity|].
    apply forallb_forall. rewrite Forall_forall in Hall.
    intros t Ht. destruct (Hall t Ht) as [Hok Hlen].
    now apply single_char_ok_clr.
Qed.

Lemma counts_invariant_witness :
  exists out,
    desugar [("+", 2%Z); ("[", 1%Z); ("-", 1%Z); ("]", 1%Z); (".", 1%Z)]
      = Ok out /\
    forallb tok_ok out = true.
Proof.
  apply (proj1 (proj2 counts_invariant)). reflexivity.
Defined.

Lemma desugar_single_pass_witness :
  has_idiom [("[", 1%Z); ("-", 2%Z); ("]", 1%Z)] = false /\
  exists out,
    desugar [("[", 1%Z); ("-", 2%Z); ("]", 1%Z)] = Ok out /\
    out = [("[", 1%Z); ("-", 2%Z); ("]", 1%Z)].
Proof.
  split; [reflexivity|].
  destruct (proj1 desugar_single_pass [("[", 1%Z); ("-", 2%Z); ("]", 1%Z)])
    as [out [Hrun [_ [_ [_ [_ Hsame]]]]]].
  exists out. split; [exact Hrun|]. apply Hsame. reflexivity.
Defined.

(** ** Emitters: nesting depth and loop ends *)

Lemma fold_left_invariant {S T : Type} (P : S -> Prop) (f : S -> T -> S) :
  (forall s t, P s -> P (f s t)) ->
  forall ts s, P s -> P (fold_left f ts s).
Proof.
  intros Hstep. induction ts as [|t ts IH]; intros s Hs; simpl.
  - exact Hs.
  - apply IH, Hstep, Hs.
Qed.

(** Splits the chain of tests of a token loop into its branches. *)
Ltac branches :=
  repeat match goal with
         | |- context [if ?b then _ else _] => destruct b
         end.

Ltac depth_step step :=
  intros [ind L] [op n] H; unfold step; cbn [fst] in *;
  branches; cbn [fst]; lia.

Lemma step_python_depth st t :
  (0 <= fst st)%Z -> (0 <= fst (step_python st t))%Z.
Proof. revert st t. depth_step step_python. Qed.

Lemma step_go_depth h st t :
  (1 <= fst st)%Z -> (1 <= fst (step_go h st t))%Z.
Proof. revert st t. depth_step step_go. Qed.

Lemma step_cpp_depth h st t :
  (1 <= fst st)%Z -> (1 <= fst (step_cpp h st t))%Z.
Proof. revert st t. depth_step step_cpp. Qed.

Lemma step_csharp_depth h st t :
  (1 <= fst st)%Z -> (1 <= fst (step_csharp h st t))%Z.
Proof. revert st t. depth_step step_csharp. Qed.

Lemma step_lua_depth st t :
  (0 <= fst st)%Z -> (0 <= fst (step_lua st t))%Z.
Proof. revert st t. depth_step step_lua. Qed.

Lemma step_ruby_depth st t :
  (0 <= fst st)%Z -> (0 <= fst (step_ruby st t))%Z.
Proof. revert st t. depth_step step_ruby. Qed.

Lemma step_rust_depth h st t :
  (1 <= fst st)%Z -> (1 <= fst (step_rust h st t))%Z.
Proof. revert st t. depth_step step_rust. Qed.

Lemma depth_after_floor step (floor : Z) :
  (forall st t, (floor <= fst st)%Z -> (floor <= fst (step st t))%Z) ->
  forall L ts, (floor <= depth_after step floor L ts)%Z.
Proof.
  intros Hstep L ts. unfold depth_after.
  apply (fold_left_invariant (fun st => (floor <= fst st)%Z)).
  - exact Hstep.
  - simpl. lia.
Qed.

(** ** Emitters and the limit on printed counts *)

Lemma too_long_one : too_long 1 = false.
Proof.
  unfold too_long. apply Z.leb_gt. change (Z.abs 1) with 1%Z.
  apply Z.pow_gt_1; unfold MAX_STR_DIGITS; lia.
Qed.

(** The smallest count that is too long to print. *)
Lemma too_long_limit : too_long (10 ^ MAX_STR_DIGITS) = true.
Proof.
  unfold too_long. apply Z.leb_le. rewrite Z.abs_eq.
  - apply Z.le_refl.
  - apply Z.pow_nonneg. discriminate.
Qed.

(** Decides the operator of the token, then the branch of its count. *)
Ltac step_r_cases step_r step :=
  unfold step_r, step, fstr, prints_count, is_run_op; cbn [fst snd];
  repeat match goal with
         | |- context [String.eqb ?op ?s] =>
             is_var op;
             destruct (String.eqb_spec op s) as [E|_];
             [ try match goal with
                   | H : op = "," -> _ = true |- _ => rewrite (H E)
                   end;
               try rewrite E; cbn [orb andb];
               try match goal with
                   | |- context [(?n =? 1)%Z] =>
                       destruct (Z.eqb_spec n 1) as [E1|_];
                       [rewrite E1, too_long_one; reflexivity|]
                   end;
               match goal with
               | |- context [too_long ?n] =>
                   destruct (too_long n); reflexivity
               | _ => reflexivity
               end
             | ]
         end;
  cbn [orb andb]; reflexivity.

Lemma step_python_r_spec (st : emit_state) (t : token) :
  step_python_r st t =
  if prints_count (fst t) && too_long (snd t) then Raise ValueError
  else Ok (step_python st t).
Proof.
  destruct st as [ind L], t as [op n]. step_r_cases step_python_r step_python.
Qed.

Lemma step_go_r_spec (h : bool) (st : emit_state) (t : token) :
  (fst t = "," -> h = true) ->
  step_go_r h st t =
  if prints_count (fst t) && too_long (snd t) then Raise ValueError
  else Ok (step_go h st t).
Proof.
  destruct st as [ind L], t as [op n]. cbn [fst]. intros Hh.
  step_r_cases step_go_r step_go.
Qed.

Lemma step_cpp_r_spec (h : bool) (st : emit_state) (t : token) :
  (fst t = "," -> h = true) ->
  step_cpp_r h st t =
  if prints_count (fst t) && too_long (snd t) then Raise ValueError
  else Ok (step_cpp h st t).
Proof.
  destruct st as [ind L], t as [op n]. cbn [fst]. intros Hh.
  step_r_cases step_cpp_r step_cpp.
Qed.

Lemma step_csharp_r_spec (h : bool) (st : emit_state) (t : token) :
  (fst t = "," -> h = true) ->
  step_csharp_r h st t =
  if prints_count (fst t) && too_long (snd t) then Raise ValueError
  else Ok (step_csharp h st t).
Proof.
  destruct st as [ind L], t as [op n]. cbn [fst]. intros Hh.
  step_r_cases step_csharp_r step_csharp.
Qed.

Lemma step_lua_r_spec (st : emit_state) (t : token) :
  step_lua_r st t =
  if prints_count (fst t) && too_long (snd t) then Raise ValueError
  else Ok (step_lua st t).
Proof.
  destruct st as [ind L], t as [op n]. step_r_cases step_lua_r step_lua.
Qed.

Lemma step_ruby_r_spec (st : emit_state) (t : token) :
  step_ruby_r st t =
  if prints_count (fst t) && too_long (snd t) then Raise ValueError
  else Ok (step_ruby st t).
Proof.
  destruct st as [ind L], t as [op n]. step_r_cases step_ruby_r step_ruby.
Qed.

Lemma step_rust_r_spec (h : bool) (st : emit_state) (t : token) :
  (fst t = "," -> h = true) ->
  step_rust_r h st t =
  if prints_count (fst t) && too_long (snd t) then Raise ValueError
  else Ok (step_rust h st t).
Proof.
  destruct st as [ind L], t as [op n]. cbn [fst]. intros Hh.
  step_r_cases step_rust_r step_rust.
Qed.

Lemma counts_print_existsb (ts : list token) :
  counts_print ts =
  negb (existsb (fun t => prints_count (fst t) && too_long (snd t)) ts).
Proof.
  unfold counts_print. induction ts as [|t ts IH]; simpl; [reflexivity|].
  rewrite IH. now rewrite negb_orb.
Qed.

(** The loop with the conversions raises at the first count that is too
    long to print, and otherwise does what the loop without them does. *)
Lemma run_tokens_spec (step_r : emit_state -> token -> result emit_state)
  (step : emit_state -> token -> emit_state) (ts : list token) :
  (forall t, In t ts -> forall st,
     step_r st t =
     if prints_count (fst t) && too_long (snd t) then Raise ValueError
     else Ok (step st t)) ->
  forall st,
  run_tokens step_r ts st =
  if counts_print ts then Ok (fold_left step ts st) else Raise ValueError.
Proof.
  rewrite counts_print_existsb.
  induction ts as [|t ts IH]; intros Hstep st.
  - reflexivity.
  - cbn [run_tokens existsb fold_left].
    rewrite (Hstep t (or_introl eq_refl) st).
    destruct (prints_count (fst t) && too_long (snd t)); cbn [bind orb negb].
    + reflexivity.
    + apply IH. intros t' Ht'. apply Hstep. now right.
Qed.

Lemma has_input_of_comma (ts : list token) (t : token) :
  In t ts -> fst t = "," -> has_input ts = true.
Proof.
  intros Hin Hc. unfold has_input. apply existsb_exists.
  exists t. split; [exact Hin|]. now apply String.eqb_eq.
Qed.

Lemma emit_python_r_spec (ts : list token) :
  emit_python_r ts =
  if counts_print ts then Ok (emit_python ts) else Raise ValueError.
Proof.
  unfold emit_python_r, emit_python.
  rewrite (run_tokens_spec step_python_r step_python ts).
  - destruct (counts_print ts); cbn [bind]; [|reflexivity].
    now destruct (fold_left step_python ts _).
  - intros t _ st. apply step_python_r_spec.
Qed.

Lemma emit_go_r_spec (ts : list token) :
  emit_go_r ts =
  if counts_print ts then Ok (emit_go ts) else Raise ValueError.
Proof.
  unfold emit_go_r, emit_go.
  rewrite (run_tokens_spec (step_go_r (has_input ts)) (step_go (has_input ts)) ts).
  - destruct (counts_print ts); cbn [bind]; [|reflexivity].
    now destruct (fold_left (step_go (has_input ts)) ts _).
  - intros t Ht st. apply step_go_r_spec.
    intros Hc. exact (has_input_of_comma ts t Ht Hc).
Qed.

Lemma emit_cpp_r_spec (ts : list token) :
  emit_cpp_r ts =
  if counts_print ts then Ok (emit_cpp ts) else Raise ValueError.
Proof.
  unfold emit_cpp_r, emit_cpp.
  rewrite (run_tokens_spec (step_cpp_r (has_input ts)) (step_cpp (has_input ts)) ts).
  - destruct (counts_print ts); cbn [bind]; [|reflexivity].
    now destruct (fold_left (step_cpp (has_input ts)) ts _).
  - intros t Ht st. apply step_cpp_r_spec.
    intros Hc. exact (has_input_of_comma ts t Ht Hc).
Qed.

Lemma emit_csharp_r_spec (ts : list token) :
  emit_csharp_r ts =
  if counts_print ts then Ok (emit_csharp ts) else Raise ValueError.
Proof.
  unfold emit_csharp_r, emit_csharp.
  rewrite (run_tokens_spec (step_csharp_r (has_input ts)) (step_csharp (has_input ts)) ts).
  - destruct (counts_print ts); cbn [bind]; [|reflexivity].
    now destruct (fold_left (step_csharp (has_input ts)) ts _).
  - intros t Ht st. apply step_csharp_r_spec.
    intros Hc. exact (has_input_of_comma ts t Ht Hc).
Qed.

Lemma emit_lua_r_spec (ts : list token) :
  emit_lua_r ts =
  if counts_print ts then Ok (emit_lua ts) else Raise ValueError.
Proof.
  unfold emit_lua_r, emit_lua.
  rewrite (run_tokens_spec step_lua_r step_lua ts).
  - destruct (counts_print ts); cbn [bind]; [|reflexivity].
    now destruct (fold_left step_lua ts _).
  - intros t _ st. apply step_lua_r_spec.
Qed.

Lemma emit_ruby_r_spec (ts : list token) :
  emit_ruby_r ts =
  if counts_print ts then Ok (emit_ruby ts) else Raise ValueError.
Proof.
  unfold emit_ruby_r, emit_ruby.
  rewrite (run_tokens_spec step_ruby_r step_ruby ts).
  - destruct (counts_print ts); cbn [bind]; [|reflexivity].
    now destruct (fold_left step_ruby ts _).
  - intros t _ st. apply step_ruby_r_spec.
Qed.

Lemma emit_rust_r_spec (ts : list token) :
  emit_rust_r ts =
  if counts_print ts then Ok (emit_rust ts) else Raise ValueError.
Proof.
  unfold emit_rust_r, emit_rust.
  rewrite (run_tokens_spec (step_rust_r (has_input ts)) (step_rust (has_input ts)) ts).
  - destruct (counts_print ts); cbn [bind]; [|reflexivity].
    now destruct (fold_left (step_rust (has_input ts)) ts _).
  - intros t Ht st. apply step_rust_r_spec.
    intros Hc. exact (has_input_of_comma ts t Ht Hc).
Qed.

(** C2, as the code has it.  No emitter checks balance: a loop-end token
    never makes an emitter fail, whatever its count and the depth, and for
    every token sequence, balanced or not, whose printed counts have at
    most 4300 digits every emitter returns its text.  The nesting depth
    never goes below its floor (0 for Python, Lua and Ruby, 1 for Go, C++,
    C# and Rust); a loop-end token met at floor depth leaves the depth at
    the floor.  For that token the Python emitter appends no line, whereas
    the Go, C++, C#, Lua, Ruby and Rust emitters still append their closing
    line, at floor indentation. *)
Theorem loop_end_at_floor :
  forall (h : bool) (L : list string) (n : Z) (ts : list token),
    (step_python (0, L) ("]", n) = (0, L) /\
     step_go h (1, L) ("]", n) = (1, L ++ ["    }"])%list /\
     step_cpp h (1, L) ("]", n) = (1, L ++ ["    }"])%list /\
     step_csharp h (1, L) ("]", n) = (1, L ++ ["    }"])%list /\
     step_lua (0, L) ("]", n) = (0, L ++ ["end"])%list /\
     step_ruby (0, L) ("]", n) = (0, L ++ ["end"])%list /\
     step_rust h (1, L) ("]", n) = (1, L ++ ["    }"])%list)%Z /\
    (0 <= depth_after step_python 0 L ts /\
     1 <= depth_after (step_go h) 1 L ts /\
     1 <= depth_after (step_cpp h) 1 L ts /\
     1 <= depth_after (step_csharp h) 1 L ts /\
     0 <= depth_after step_lua 0 L ts /\
     0 <= depth_after step_ruby 0 L ts /\
     1 <= depth_after (step_rust h) 1 L ts)%Z /\
    (forall st : emit_state,
       step_python_r st ("]", n) = Ok (step_python st ("]", n)) /\
       step_go_r h st ("]", n) = Ok (step_go h st ("]", n)) /\
       step_cpp_r h st ("]", n) = Ok (step_cpp h st ("]", n)) /\
       step_csharp_r h st ("]", n) = Ok (step_csharp h st ("]", n)) /\
       step_lua_r st ("]", n) = Ok (step_lua st ("]", n)) /\
       step_ruby_r st ("]", n) = Ok (step_ruby st ("]", n)) /\
       step_rust_r h st ("]", n) = Ok (step_rust h st ("]", n))) /\
    (counts_print ts = true ->
     emit_python_r ts = Ok (emit_python ts) /\
     emit_go_r ts = Ok (emit_go ts) /\
     emit_cpp_r ts = Ok (emit_cpp ts) /\
     emit_csharp_r ts = Ok (emit_csharp ts) /\
     emit_lua_r ts = Ok (emit_lua ts) /\
     emit_ruby_r ts = Ok (emit_ruby ts) /\
     emit_rust_r ts = Ok (emit_rust ts)).
Proof.
  intros h L n ts. split; [|split; [|split]].
  - repeat split; reflexivity.
  - repeat split.
    + apply depth_after_floor; exact step_python_depth.
    + apply depth_after_floor; exact (step_go_depth h).
    + apply depth_after_floor; exact (step_cpp_depth h).
    + apply depth_after_floor; exact (step_csharp_depth h).
    + apply depth_after_floor; exact step_lua_depth.
    + apply depth_after_floor; exact step_ruby_depth.
    + apply depth_after_floor; exact (step_rust_depth h).
  - intros [ind L0]. repeat split; reflexivity.
  - intros Hts.
    rewrite emit_python_r_spec, emit_go_r_spec, emit_cpp_r_spec,
      emit_csharp_r_spec, emit_lua_r_spec, emit_ruby_r_spec,
      emit_rust_r_spec, Hts.
    repeat split.
Qed.

Lemma loop_end_at_floor_witness :
  emit_python_r [("]", 1%Z)] = Ok (emit_python [("]", 1%Z)]) /\
  emit_go_r [("]", 1%Z)] = Ok (emit_go [("]", 1%Z)]) /\
  emit_cpp_r [("]", 1%Z)] = Ok (emit_cpp [("]", 1%Z)]) /\
  emit_csharp_r [("]", 1%Z)] = Ok (emit_csharp [("]", 1%Z)]) /\
  emit_lua_r [("]", 1%Z)] = Ok (emit_lua [("]", 1%Z)]) /\
  emit_ruby_r [("]", 1%Z)] = Ok (emit_ruby [("]", 1%Z)]) /\
  emit_rust_r [("]", 1%Z)] = Ok (emit_rust [("]", 1%Z)]).
Proof.
  apply (loop_end_at_floor false [] 1%Z [("]", 1%Z)]). reflexivity.
Defined.

(** C2, as stated, fails: at floor depth the Go emitter appends a closing
    brace for an unmatched loop-end token, so the program for a lone
    loop-end differs from the program for no token at all. *)
Lemma unmatched_loop_end_emits_closer :
  step_go false (1%Z, []) LOOP_END = (1%Z, ["    }"]) /\
  emit_go [LOOP_END] <> emit_go [] /\
  occurs ("    }" ++ nl ++ "}") (emit_go [LOOP_END]) = true /\
  occurs ("    }" ++ nl ++ "}") (emit_go []) = false.
Proof.
  repeat split; try reflexivity.
  intros H. vm_compute in H. discriminate H.
Qed.

(** ** What returns and what raises *)

Lemma sanitize_length_le (s : string) :
  (String.length (sanitize s) <= String.length s)%nat.
Proof.
  induction s as [|c s IH]; simpl; [lia|].
  destruct (in_chars c BF_OPS); simpl; lia.
Qed.

(** Tokens of the front end carry counts between zero and the length of
    the source. *)
Lemma front_end_counts_bounded (src : string) :
  exists toks, fold_runs (sanitize src) = Ok toks /\
    front_end src = Ok (collapse toks) /\
    Forall (fun t => (0 <= snd t <= Z.of_nat (String.length src))%Z) toks.
Proof.
  pose proof (sanitize_length_le src) as Hlen.
  destruct (fold_runs_inv (sanitize src)
    (fun out _ =>
       Forall (fun t => (0 <= snd t <= Z.of_nat (String.length src))%Z) out))
    as [toks [Hr Hall]].
  - intros out i c j HI _ _ Hj.
    apply Forall_app. split; [exact HI|]. constructor; [|constructor].
    cbn [snd]. lia.
  - intros out i c HI _ _ Hi.
    apply Forall_app. split; [exact HI|]. constructor; [|constructor].
    cbn [snd]. lia.
  - constructor.
  - exists toks. split; [exact Hr|]. split; [|exact Hall].
    unfold front_end. cbn [bind]. rewrite Hr. cbn [bind].
    apply desugar_collapse.
Qed.

Lemma front_end_counts_print (src : string) :
  (Z.of_nat (String.length src) < 10 ^ MAX_STR_DIGITS)%Z ->
  exists toks, front_end src = Ok toks /\ counts_print toks = true.
Proof.
  intros Hsrc.
  destruct (front_end_counts_bounded src) as [toks [_ [Hfe Hall]]].
  exists (collapse toks). split; [exact Hfe|].
  unfold counts_print. apply forallb_forall. intros t Ht.
  pose proof (collapse_tokens toks) as Hc. rewrite Forall_forall in Hc.
  apply negb_true_iff, andb_false_iff. right.
  destruct (Hc t Ht) as [Hin| ->]; [|exact too_long_one].
  rewrite Forall_forall in Hall. specialize (Hall t Hin).
  unfold too_long. apply Z.leb_gt.
  set (B := (10 ^ MAX_STR_DIGITS)%Z) in *.
  rewrite Z.abs_eq; lia.
Qed.

(** C8, as the code has it.  The folder returns tokens for every string
    and the desugarer for every token sequence, neither running out of
    range or looping, and so does the front end, normalizer included, for
    every source text.  An emitter returns its program text for every
    token sequence, balanced or not, all of whose printed counts have at
    most 4300 digits, and raises [ValueError] on every other token
    sequence.  The tokens of a source text of fewer than 10^4300
    characters are of the first kind. *)
Theorem pipeline_returns :
  (forall ops : string, exists toks, fold_runs ops = Ok toks) /\
  (forall ts : list token, exists out, desugar ts = Ok out) /\
  (forall src : string, exists toks, front_end src = Ok toks) /\
  (forall src : string,
     (Z.of_nat (String.length src) < 10 ^ MAX_STR_DIGITS)%Z ->
     exists toks, front_end src = Ok toks /\ counts_print toks = true) /\
  (forall ts : list token,
     let outcome (text : string) : result string :=
       if counts_print ts then Ok text else Raise ValueError in
     emit_python_r ts = outcome (emit_python ts) /\
     emit_go_r ts = outcome (emit_go ts) /\
     emit_cpp_r ts = outcome (emit_cpp ts) /\
     emit_csharp_r ts = outcome (emit_csharp ts) /\
     emit_lua_r ts = outcome (emit_lua ts) /\
     emit_ruby_r ts = outcome (emit_ruby ts) /\
     emit_rust_r ts = outcome (emit_rust ts)).
Proof.
  split.
  { intros ops.
    destruct (fold_runs_inv ops (fun _ _ => True)) as [toks [Hr _]]; auto.
    now exists toks. }
  split; [intros ts; exists (collapse ts); apply desugar_collapse|].
  split.
  { intros src.
    destruct (front_end_counts_bounded src) as [toks [_ [Hfe _]]].
    now exists (collapse toks). }
  split; [exact front_end_counts_print|].
  intros ts outcome. subst outcome. cbv beta.
  rewrite emit_python_r_spec, emit_go_r_spec, emit_cpp_r_spec,
    emit_csharp_r_spec, emit_lua_r_spec, emit_ruby_r_spec, emit_rust_r_spec.
  repeat split.
Qed.

Lemma pipeline_returns_witness :
  exists toks,
    front_end "++[>,.<-]" = Ok toks /\ counts_print toks = true.
Proof.
  apply (proj1 (proj2 (proj2 (proj2 pipeline_returns)))).
  change (Z.of_nat (String.length "++[>,.<-]")) with 9%Z.
  apply Z.lt_le_trans with (10 ^ 1)%Z; [reflexivity|].
  apply Z.pow_le_mono_r; unfold MAX_STR_DIGITS; lia.
Defined.

(** C8, as stated, fails: a token sequence with a count of 4301 digits
    makes every emitter raise where the claim has it return. *)
Lemma huge_count_raises :
  emit_python_r [("+", 10 ^ 4300)%Z] = Raise ValueError /\
  emit_go_r [("+", 10 ^ 4300)%Z] = Raise ValueError /\
  emit_cpp_r [("+", 10 ^ 4300)%Z] = Raise ValueError /\
  emit_csharp_r [("+", 10 ^ 4300)%Z] = Raise ValueError /\
  emit_lua_r [("+", 10 ^ 4300)%Z] = Raise ValueError /\
  emit_ruby_r [("+", 10 ^ 4300)%Z] = Raise ValueError /\
  emit_rust_r [("+", 10 ^ 4300)%Z] = Raise ValueError.
Proof.
  change (10 ^ 4300)%Z with (10 ^ MAX_STR_DIGITS)%Z.
  assert (H : counts_print [("+", 10 ^ MAX_STR_DIGITS)%Z] = false).
  { unfold counts_print. cbn [forallb fst snd].
    rewrite too_long_limit. reflexivity. }
  rewrite emit_python_r_spec, emit_go_r_spec, emit_cpp_r_spec,
    emit_csharp_r_spec, emit_lua_r_spec, emit_ruby_r_spec, emit_rust_r_spec,
    H.
  repeat split.
Qed.

(** ** Text search *)

Lemma append_nil_r (s : string) : s ++ "" = s.
Proof. induction s as [|c s IH]; simpl; [reflexivity|now rewrite IH]. Qed.

(** Two ways of cutting one string differ by a middle piece. *)
Lemma append_split (a b x y : string) :
  a ++ b = x ++ y ->
  exists l, (a = x ++ l /\ y = l ++ b) \/ (x = a ++ l /\ b = l ++ y).
Proof.
  revert x. induction a as [|c a IH]; intros x H; simpl in H.
  - exists x. right. now split.
  - destruct x as [|d x]; simpl in H.
    + exists (String c a). left. now split.
    + inversion H as [[Hc Hr]]. subst d.
      destruct (IH x Hr) as [l [[Ha Hy]|[Hx Hb]]]; exists l; [left|right];
        simpl; (split; congruence).
Qed.

Lemma starts_with_spec (w s : string) :
  starts_with w s = true <-> exists r, s = w ++ r.
Proof.
  revert s. induction w as [|a w IH]; intros s; simpl.
  - split; [intros _; now exists s|reflexivity].
  - destruct s as [|b s].
    + split; [discriminate|intros [r H]; discriminate H].
    + rewrite andb_true_iff, Ascii.eqb_eq, IH. split.
      * intros [-> [r ->]]. now exists r.
      * intros [r H]. inversion H. split; [reflexivity|now exists r].
Qed.

Lemma occurs_spec (w s : string) :
  occurs w s = true <-> exists a b, s = a ++ w ++ b.
Proof.
  induction s as [|c s IH].
  - cbn [occurs]. rewrite orb_false_r, starts_with_spec. split.
    + intros [r H]. now exists "", r.
    + intros [a [b H]]. destruct a; [now exists b|discriminate H].
  - cbn [occurs]. rewrite orb_true_iff, starts_with_spec, IH. split.
    + intros [[r H]|[a [b H]]].
      * now exists "", r.
      * exists (String c a), b. simpl. now rewrite H.
    + intros [a [b H]]. destruct a as [|d a]; simpl in H.
      * left. now exists b.
      * right. inversion H. now exists a, b.
Qed.

Lemma all_chars_app (p : ascii -> bool) (a b : string) :
  all_chars p (a ++ b) = all_chars p a && all_chars p b.
Proof.
  induction a as [|c a IH]; simpl; [reflexivity|].
  now rewrite IH, andb_assoc.
Qed.

Lemma all_chars_at (p : ascii -> bool) (s l m : string) (c : ascii) :
  all_chars p s = true -> s = l ++ String c m -> p c = true.
Proof.
  intros H ->. rewrite all_chars_app in H.
  apply andb_true_iff in H. destruct H as [_ H].
  simpl in H. now apply andb_true_iff in H.
Qed.

(** An occurrence of a clean word in [a ++ d ++ b], where [d] is a
    non-empty run of separators, lies within [a] or within [b]. *)
Lemma occurs_across (w a d b : string) :
  clean w = true -> all_chars sepc d = true -> d <> "" ->
  occurs w (a ++ d ++ b) = true -> occurs w a = true \/ occurs w b = true.
Proof.
  unfold clean. intros Hw Hd Hne Hocc.
  apply andb_true_iff in Hw. destruct Hw as [Hwne Hw].
  assert (Hw0 : w <> "") by (intros ->; discriminate Hwne).
  apply occurs_spec in Hocc. destruct Hocc as [x [y H]].
  destruct (append_split _ _ _ _ H) as [l [[Ha Hy]|[Hx Hb]]].
  - destruct (append_split _ _ _ _ Hy) as [m [[Hwl Hdb]|[Hl Hyy]]].
    + destruct m as [|c m'].
      * left. apply occurs_spec. exists x, "".
        rewrite append_nil_r in Hwl. subst w. now rewrite append_nil_r.
      * exfalso. destruct d as [|c' d']; [now apply Hne|].
        simpl in Hdb. inversion Hdb. subst c'.
        pose proof (all_chars_at _ _ _ _ _ Hw Hwl) as Hc.
        pose proof (all_chars_at _ _ "" _ _ Hd eq_refl) as Hs.
        cbv beta in Hc. rewrite Hs in Hc. discriminate Hc.
    + left. apply occurs_spec. exists x, m. subst a l. reflexivity.
  - destruct (append_split _ _ _ _ Hb) as [m [[Hdl Hwy]|[Hl Hbb]]].
    + destruct m as [|c m'].
      * right. apply occurs_spec. exists "", y. simpl in *. congruence.
      * exfalso. destruct w as [|c' w']; [now apply Hw0|].
        simpl in Hwy. inversion Hwy. subst c'.
        pose proof (all_chars_at _ _ "" _ _ Hw eq_refl) as Hc.
        pose proof (all_chars_at _ _ _ _ _ Hd Hdl) as Hs.
        cbv beta in Hc. rewrite Hs in Hc. discriminate Hc.
    + right. apply occurs_spec. exists m, y. exact Hbb.
Qed.

Lemma occurs_empty (w : string) : clean w = true -> occurs w "" = false.
Proof.
  unfold clean. destruct w; [discriminate|reflexivity].
Qed.

(** Separators in front of a piece do not create an occurrence. *)
Lemma free_behind (w d b : string) :
  clean w = true -> all_chars sepc d = true ->
  occurs w b = false -> occurs w (d ++ b) = false.
Proof.
  intros Hw Hd Hb.
  destruct d as [|c d]; [exact Hb|].
  destruct (occurs w (String c d ++ b)) eqn:Ho; [|reflexivity].
  change (String c d ++ b) with ("" ++ String c d ++ b) in Ho.
  destruct (occurs_across w "" (String c d) b Hw Hd) as [H|H];
    [discriminate|exact Ho| |congruence].
  rewrite (occurs_empty w Hw) in H. discriminate H.
Qed.

(** Separators between two pieces do not create an occurrence. *)
Lemma free_around (w a d b : string) :
  clean w = true -> all_chars sepc d = true -> d <> "" ->
  occurs w a = false -> occurs w b = false ->
  occurs w (a ++ d ++ b) = false.
Proof.
  intros Hw Hd Hne Ha Hb.
  destruct (occurs w (a ++ d ++ b)) eqn:Ho; [|reflexivity].
  destruct (occurs_across w a d b Hw Hd Hne Ho); congruence.
Qed.

Lemma indent_sep (ind : Z) : all_chars sepc (indent ind) = true.
Proof.
  unfold indent. induction (Z.to_nat ind) as [|k IH]; [reflexivity|].
  cbn [times]. now rewrite all_chars_app, IH.
Qed.

Lemma uint_sep (u : Decimal.uint) :
  all_chars sepc (NilEmpty.string_of_uint u) = true.
Proof. induction u; simpl; try reflexivity; exact IHu. Qed.

Lemma uint_zero_sep (u : Decimal.uint) :
  all_chars sepc (NilZero.string_of_uint u) = true /\
  NilZero.string_of_uint u <> "".
Proof.
  destruct u; (split; [|discriminate]);
    try reflexivity; apply (uint_sep (_ u)) || apply uint_sep.
Qed.

(** A printed count is a non-empty run of digits, behind a minus sign if
    negative. *)
Lemma dec_sep (n : Z) : all_chars sepc (dec n) = true /\ dec n <> "".
Proof.
  unfold dec.
  destruct (Z.to_int n) as [u|u]; cbn [NilZero.string_of_int].
  - apply uint_zero_sep.
  - split; [|discriminate]. cbn [all_chars].
    now rewrite (proj1 (uint_zero_sep u)).
Qed.

(** The three shapes of a generated line. *)
Lemma line_fixed (w : string) (ind : Z) (stmt : string) :
  clean w = true -> occurs w stmt = false ->
  occurs w (indent ind ++ stmt) = false.
Proof. intros Hw Hs. apply free_behind; auto using indent_sep. Qed.

Lemma line_count (w : string) (ind n : Z) (pre post : string) :
  clean w = true -> occurs w pre = false -> occurs w post = false ->
  occurs w (indent ind ++ pre ++ dec n ++ post) = false.
Proof.
  intros Hw Hpre Hpost. apply free_behind; auto using indent_sep.
  destruct (dec_sep n). now apply free_around.
Qed.

Lemma line_count_end (w : string) (ind n : Z) (pre : string) :
  clean w = true -> occurs w pre = false ->
  occurs w (indent ind ++ pre ++ dec n) = false.
Proof.
  intros Hw Hpre. rewrite <- (append_nil_r (dec n)).
  apply line_count; auto using occurs_empty.
Qed.

(** A clean word occurs in joined lines only within one of the lines. *)
Lemma join_free (w : string) (L : list string) :
  clean w = true -> Forall (fun l => occurs w l = false) L ->
  occurs w (join L) = false.
Proof.
  intros Hw. unfold join. induction L as [|l L IH]; intros HL.
  - now apply occurs_empty.
  - inversion HL as [|? ? Hl HL']. subst.
    destruct L as [|l' L]; [exact Hl|].
    change (String.concat nl (l :: l' :: L))
      with (l ++ nl ++ String.concat nl (l' :: L)).
    apply free_around; auto; discriminate.
Qed.

(** ** Emitters without an input token *)

(** Closes [occurs w line = false] for a line of one of the three shapes
    whose fixed pieces do not contain [w]. *)
Ltac free_line :=
  first
    [ apply line_count; reflexivity
    | apply line_count_end; reflexivity
    | apply line_fixed; reflexivity ].

(** A step of a gated emitter, run with [has_in] false, appends only lines
    free of [w]. *)
Ltac free_step step :=
  intros [ind L] [op n] HL; unfold step, e;
  rewrite ?andb_false_r; cbv zeta; cbn [snd] in *;
  branches; cbn [snd]; try exact HL;
  (apply Forall_app; split; [exact HL|]);
  (constructor; [free_line|constructor]).

(** The flag [has_in] is off exactly when no token is an input token. *)
Lemma has_input_false (ts : list token) :
  has_input ts = false <-> Forall (fun t => fst t <> ",") ts.
Proof.
  unfold has_input. induction ts as [|t ts IH]; simpl.
  - split; [constructor|reflexivity].
  - rewrite orb_false_iff, IH, String.eqb_neq. split.
    + intros [Ht Hts]. now constructor.
    + intros H. inversion H. now split.
Qed.

Lemma go_no_input_free (m : string) (ts : list token) :
  clean m = true ->
  Forall (fun l => occurs m l = false) (go_head false) ->
  (forall st t, Forall (fun l => occurs m l = false) (snd st) ->
     Forall (fun l => occurs m l = false) (snd (step_go false st t))) ->
  occurs m "}" = false ->
  has_input ts = false -> occurs m (emit_go ts) = false.
Proof.
  intros Hm Hhead Hstep Hfoot Hin. unfold emit_go. rewrite Hin.
  pose proof (fold_left_invariant
    (fun st : emit_state => Forall (fun l => occurs m l = false) (snd st))
    (step_go false) Hstep ts (1%Z, go_head false) Hhead) as HL.
  destruct (fold_left (step_go false) ts (1%Z, go_head false)) as [ind L].
  cbn [snd] in HL. apply join_free; [exact Hm|]. unfold w, e.
  repeat (apply Forall_app; split); auto; repeat constructor; auto;
    try (now apply occurs_empty); try (now apply line_fixed).
Qed.

Lemma cpp_no_input_free (m : string) (ts : list token) :
  clean m = true ->
  Forall (fun l => occurs m l = false) (cpp_head) ->
  (forall st t, Forall (fun l => occurs m l = false) (snd st) ->
     Forall (fun l => occurs m l = false) (snd (step_cpp false st t))) ->
  occurs m "}" = false /\ occurs m "return 0;" = false ->
  has_input ts = false -> occurs m (emit_cpp ts) = false.
Proof.
  intros Hm Hhead Hstep [Hfoot Hlast] Hin. unfold emit_cpp. rewrite Hin.
  pose proof (fold_left_invariant
    (fun st : emit_state => Forall (fun l => occurs m l = false) (snd st))
    (step_cpp false) Hstep ts (1%Z, cpp_head) Hhead) as HL.
  destruct (fold_left (step_cpp false) ts (1%Z, cpp_head)) as [ind L].
  cbn [snd] in HL. apply join_free; [exact Hm|]. unfold w, e.
  repeat (apply Forall_app; split); auto; repeat constructor; auto;
    try (now apply occurs_empty); try (now apply line_fixed).
Qed.

Lemma csharp_no_input_free (m : string) (ts : list token) :
  clean m = true ->
  Forall (fun l => occurs m l = false) (csharp_head false) ->
  (forall st t, Forall (fun l => occurs m l = false) (snd st) ->
     Forall (fun l => occurs m l = false) (snd (step_csharp false st t))) ->
  occurs m "}}" = false ->
  has_input ts = false -> occurs m (emit_csharp ts) = false.
Proof.
  intros Hm Hhead Hstep Hfoot Hin. unfold emit_csharp. rewrite Hin.
  pose proof (fold_left_invariant
    (fun st : emit_state => Forall (fun l => occurs m l = false) (snd st))
    (step_csharp false) Hstep ts (1%Z, csharp_head false) Hhead) as HL.
  destruct (fold_left (step_csharp false) ts (1%Z, csharp_head false)) as [ind L].
  cbn [snd] in HL. apply join_free; [exact Hm|]. unfold w, e.
  repeat (apply Forall_app; split); auto; repeat constructor; auto;
    try (now apply occurs_empty); try (now apply line_fixed).
Qed.

Lemma rust_no_input_free (m : string) (ts : list token) :
  clean m = true ->
  Forall (fun l => occurs m l = false) (rust_head false) ->
  (forall st t, Forall (fun l => occurs m l = false) (snd st) ->
     Forall (fun l => occurs m l = false) (snd (step_rust false st t))) ->
  occurs m "}" = false /\ occurs m "out.flush().unwrap();" = false ->
  has_input ts = false -> occurs m (emit_rust ts) = false.
Proof.
  intros Hm Hhead Hstep [Hfoot Hlast] Hin. unfold emit_rust. rewrite Hin.
  pose proof (fold_left_invariant
    (fun st : emit_state => Forall (fun l => occurs m l = false) (snd st))
    (step_rust false) Hstep ts (1%Z, rust_head false) Hhead) as HL.
  destruct (fold_left (step_rust false) ts (1%Z, rust_head false)) as [ind L].
  cbn [snd] in HL. apply join_free; [exact Hm|]. unfold w, e.
  repeat (apply Forall_app; split); auto; repeat constructor; auto;
    try (now apply occurs_empty); try (now apply line_fixed).
Qed.

(** Closes [occurs m (emit ts) = false] for a concrete mark [m], through
    the assembly lemma [asm] of the emitter with token loop [step]. *)
Ltac no_mark asm step Hin :=
  apply negb_true_iff; apply asm;
  [ reflexivity
  | cbv [go_head csharp_head rust_head cpp_head go_import app];
    repeat constructor
  | free_step step
  | repeat split; reflexivity
  | exact Hin ].

(** C9. For every token sequence with no input token, the programs of the
    Go, C++, C# and Rust emitters contain none of the stdin-reading
    declarations and calls that these emitters write when there is one:
    neither the reader set up in the head under [has_in] nor the
    translation of an input token. *)
Theorem no_input_token_no_reader :
  forall ts : list token,
  has_input ts = false ->
  none_occurs go_input_marks (emit_go ts) = true /\
  none_occurs cpp_input_marks (emit_cpp ts) = true /\
  none_occurs csharp_input_marks (emit_csharp ts) = true /\
  none_occurs rust_input_marks (emit_rust ts) = true.
Proof.
  intros ts Hin.
  unfold none_occurs, go_input_marks, cpp_input_marks, csharp_input_marks,
    rust_input_marks.
  cbn [forallb]. rewrite !andb_true_r.
  repeat split; repeat (apply andb_true_iff; split).
  all: first
    [ no_mark go_no_input_free step_go Hin
    | no_mark cpp_no_input_free step_cpp Hin
    | no_mark csharp_no_input_free step_csharp Hin
    | no_mark rust_no_input_free step_rust Hin ].
Qed.

Lemma no_input_token_no_reader_witness :
  none_occurs go_input_marks
    (emit_go [("+", 2%Z); ("[", 1%Z); (".", 1%Z); ("]", 1%Z)]) = true /\
  none_occurs cpp_input_marks
    (emit_cpp [("+", 2%Z); ("[", 1%Z); (".", 1%Z); ("]", 1%Z)]) = true /\
  none_occurs csharp_input_marks
    (emit_csharp [("+", 2%Z); ("[", 1%Z); (".", 1%Z); ("]", 1%Z)]) = true /\
  none_occurs rust_input_marks
    (emit_rust [("+", 2%Z); ("[", 1%Z); (".", 1%Z); ("]", 1%Z)]) = true.
Proof.
  apply (no_input_token_no_reader
           [("+", 2%Z); ("[", 1%Z); (".", 1%Z); ("]", 1%Z)]).
  reflexivity.
Defined.

(** With an input token the marks are there: the theorem above is not
    about marks that never occur. *)
Example input_token_brings_reader :
  none_occurs go_input_marks (emit_go [(",", 1%Z)]) = false /\
  none_occurs cpp_input_marks (emit_cpp [(",", 1%Z)]) = false /\
  none_occurs csharp_input_marks (emit_csharp [(",", 1%Z)]) = false /\
  none_occurs rust_input_marks (emit_rust [(",", 1%Z)]) = false.
Proof. repeat split; reflexivity. Qed.

(** ** Generated text at inputs where the targets part ways *)

(** C3, at its failing input.  A run of 256 increments folds to the one
    token with count 256, and the Go and Rust emitters print that count
    into an 8-bit position of the target program: the operand of a [byte]
    conversion in Go, the argument of [wrapping_add] on a [u8] in Rust.
    The masking emitters print the same count next to [& 255]. *)
Theorem count_256_in_byte_position :
  front_end (times "+" 256) = Ok [("+", 256%Z)] /\
  emit_go [("+", 256%Z)] =
    join (go_head false ++
          [ "    tape[dp] = byte(int(tape[dp]+byte(256)) & 255)";
            "}"; "" ])%list /\
  emit_rust [("+", 256%Z)] =
    join (rust_head false ++
          [ "    tape[dp] = tape[dp].wrapping_add(256);";
            "    out.flush().unwrap();";
            "}"; "" ])%list /\
  emit_python [("+", 256%Z)] =
    join (python_head ++
          [ "tape[dp] = (tape[dp] + 256) & 255";
            "sys.stdout.buffer.write(bytes(out))"; "" ])%list.
Proof. repeat split; vm_compute; reflexivity. Qed.

(** C1, at its failing inputs.  Two input operators in one block make the
    C++ and the C# emitter declare the local [c] twice in that block, where
    the counted form of the same emitters opens a block of its own for it;
    and a loop with an empty body makes the Python emitter write a [while]
    header with no indented line under it. *)
Theorem targets_part_ways :
  front_end ",," = Ok [(",", 1%Z); (",", 1%Z)] /\
  emit_cpp [(",", 1%Z); (",", 1%Z)] =
    join (cpp_head ++
          [ "    int c = std::cin.get(); tape[dp] = (c==EOF?0:(unsigned char)c);";
            "    int c = std::cin.get(); tape[dp] = (c==EOF?0:(unsigned char)c);";
            "    return 0;";
            "}"; "" ])%list /\
  emit_csharp [(",", 1%Z); (",", 1%Z)] =
    join (csharp_head true ++
          [ "    int c = input.ReadByte(); tape[dp] = (byte)(c==-1?0:c);";
            "    int c = input.ReadByte(); tape[dp] = (byte)(c==-1?0:c);";
            "}}"; "" ])%list /\
  front_end "[]" = Ok [("[", 1%Z); ("]", 1%Z)] /\
  emit_python [("[", 1%Z); ("]", 1%Z)] =
    join (python_head ++
          [ "while tape[dp] != 0:";
            "sys.stdout.buffer.write(bytes(out))"; "" ])%list.
Proof. repeat split; vm_compute; reflexivity. Qed.

(** ** Scenarios of the front end *)

Example sanitize_drops_comments :
  sanitize ("read , then print . " ++ nl ++ "+[-]x") = ",.+[-]".
Proof. reflexivity. Qed.

Example fold_runs_scenario :
  fold_runs "+++>>.[-]" =
  Ok [("+", 3%Z); (">", 2%Z); (".", 1%Z); ("[", 1%Z); ("-", 1%Z); ("]", 1%Z)].
Proof. reflexivity. Qed.

Example front_end_clear_cell : front_end "[-]" = Ok [CLR].
Proof. reflexivity. Qed.

Example front_end_empty : front_end "" = Ok [].
Proof. reflexivity. Qed.

Example front_end_multiply :
  front_end "++++++++[->++++++++<]>." =
  Ok [("+", 8%Z); ("[", 1%Z); ("-", 1%Z); (">", 1%Z); ("+", 8%Z);
      ("<", 1%Z); ("]", 1%Z); (">", 1%Z); (".", 1%Z)].
Proof. reflexivity. Qed.

Example desugar_is_one_pass :
  desugar [("[", 1%Z); ("[", 1%Z); ("-", 1%Z); ("]", 1%Z); ("-", 1%Z);
           ("]", 1%Z)] =
  Ok [("[", 1%Z); CLR; ("-", 1%Z); ("]", 1%Z)].
Proof. reflexivity. Qed.

(** * Further properties of the code *)

(** ** The normalizer *)

(** X1. Normalizing distributes over concatenation: text can be
    normalized piece by piece, and text put between two pieces only
    contributes its own operators. *)
Theorem sanitize_app :
  forall a b : string, sanitize (a ++ b) = sanitize a ++ sanitize b.
Proof.
  induction a as [|c a IH]; intros b; simpl.
  - reflexivity.
  - rewrite IH. now destruct (in_chars c BF_OPS).
Qed.

Lemma sanitize_length (s : string) :
  (String.length (sanitize s) <= String.length s)%nat.
Proof.
  induction s as [|c s IH]; simpl; [lia|].
  destruct (in_chars c BF_OPS); simpl; lia.
Qed.

Lemma sanitize_all_operators (s : string) :
  all_chars (fun c => in_chars c BF_OPS) (sanitize s) = true.
Proof.
  induction s as [|c s IH]; simpl; [reflexivity|].
  destruct (in_chars c BF_OPS) eqn:Hc; simpl; [now rewrite Hc|exact IH].
Qed.

(** X2. The normalized string holds operators only, is never longer than
    the text, and the strings the normalizer leaves unchanged are exactly
    the strings of operators. *)
Theorem sanitize_operators_only :
  forall s : string,
    all_chars (fun c => in_chars c BF_OPS) (sanitize s) = true /\
    (String.length (sanitize s) <= String.length s)%nat /\
    (sanitize s = s <-> all_chars (fun c => in_chars c BF_OPS) s = true).
Proof.
  intros s. split; [|split; [apply sanitize_length|]].
  - apply sanitize_all_operators.
  - induction s as [|c s IH]; cbn [sanitize all_chars]; [tauto|].
    destruct (in_chars c BF_OPS) eqn:Hc; cbn [andb].
    + rewrite <- IH. split; [intros H; congruence|intros H; now f_equal].
    + split; [|discriminate]. intros H.
      pose proof (sanitize_length s) as Hl. rewrite H in Hl. simpl in Hl. lia.
Qed.

(** ** The run-length folder, run by run *)

(** The inner loop stops at the end of the run: every character it went
    over is [c], and the one it stops at, if any, is not. *)
Lemma run_end_run (ops : string) (c : ascii) (n : nat) :
  n = String.length ops ->
  forall fuel j, (j <= n)%nat -> (n - j < fuel)%nat ->
  exists j', run_end fuel ops c j n = Ok j' /\ (j <= j' <= n)%nat /\
    (forall k, (j <= k < j')%nat -> char_at ops k = Ok c) /\
    ((j' < n)%nat -> char_at ops j' <> Ok c).
Proof.
  intros Hn. induction fuel as [|fuel IH]; intros j Hj Hf.
  - lia.
  - cbn [run_end]. destruct (Nat.ltb_spec j n) as [Hlt|Hge].
    + destruct (char_at_in_range ops j) as [x Hx]; [lia|].
      rewrite Hx. cbn [bind].
      destruct (Ascii.eqb_spec x c) as [->|Hne].
      * destruct (IH (j + 1)%nat) as [j' [Hr [Hb [Hall Hstop]]]]; [lia|lia|].
        exists j'. split; [exact Hr|]. split; [lia|]. split; [|exact Hstop].
        intros k Hk. destruct (Nat.eq_dec k j) as [->|Hkj]; [exact Hx|].
        apply Hall. lia.
      * exists j. split; [reflexivity|]. split; [lia|]. split.
        -- intros k Hk. lia.
        -- intros _ H. rewrite Hx in H. inversion H. contradiction.
    + exists j. split; [reflexivity|]. split; [lia|]. split; intros; lia.
Qed.

(** Loop-invariant rule for [fold_runs] that also gives, in the branch of
    a run, what the inner loop found. *)
Section FoldRunsRuns.

Variable ops : string.
Variable Inv : list token -> nat -> Prop.

Let n := String.length ops.

Hypothesis Inv_run : forall out i c j,
  Inv out i -> in_chars c "+-<>" = true -> (i < j <= n)%nat ->
  (forall k, (i <= k < j)%nat -> char_at ops k = Ok c) ->
  ((j < n)%nat -> char_at ops j <> Ok c) ->
  Inv (out ++ [(one_char c, Z.of_nat (j - i))])%list j.

Hypothesis Inv_single : forall out i c,
  Inv out i -> char_at ops i = Ok c -> in_chars c "+-<>" = false ->
  (i < n)%nat ->
  Inv (out ++ [(one_char c, 1%Z)])%list (i + 1)%nat.

Lemma fold_runs_loop_runs :
  forall fuel out i, (i <= n)%nat -> (n - i < fuel)%nat -> Inv out i ->
  exists out', fold_runs_loop fuel ops out i n = Ok out' /\ Inv out' n.
Proof.
  induction fuel as [|fuel IH]; intros out i Hi Hf HI.
  - lia.
  - cbn [fold_runs_loop]. destruct (Nat.ltb_spec i n) as [Hlt|Hge].
    + destruct (char_at_in_range ops i) as [c Hc]; [exact Hlt|].
      rewrite Hc. cbn [bind].
      destruct (in_chars c "+-<>") eqn:Hrun.
      * destruct (run_end_run ops c n eq_refl (S n) (i + 1)%nat)
          as [j [Hj [Hb [Hall Hstop]]]]; [lia|lia|].
        rewrite Hj. cbn [bind].
        apply IH; [lia|lia|].
        apply Inv_run; [exact HI|exact Hrun|lia| |exact Hstop].
        intros k Hk. destruct (Nat.eq_dec k i) as [->|Hki]; [exact Hc|].
        apply Hall. lia.
      * apply IH; [lia|lia|].
        apply Inv_single; assumption.
    + exists out. split; [reflexivity|].
      replace n with i by lia. exact HI.
Qed.

Lemma fold_runs_runs :
  Inv [] 0%nat -> exists toks, fold_runs ops = Ok toks /\ Inv toks n.
Proof.
  intros H0. unfold fold_runs. fold n.
  apply fold_runs_loop_runs; [lia|lia|exact H0].
Qed.

End FoldRunsRuns.

Lemma append_assoc (a b c : string) : (a ++ b) ++ c = a ++ b ++ c.
Proof. induction a as [|x a IH]; simpl; [reflexivity|now rewrite IH]. Qed.

Lemma length_append (a b : string) :
  String.length (a ++ b) = (String.length a + String.length b)%nat.
Proof. induction a as [|x a IH]; simpl; [reflexivity|now rewrite IH]. Qed.

Lemma char_at_append (a r : string) (k : nat) :
  char_at (a ++ r) (String.length a + k) = char_at r k.
Proof.
  unfold char_at. rewrite (append_correct2 a r k).
  now rewrite Nat.add_comm.
Qed.

Lemma times_one_char_length (c : ascii) (m : nat) :
  String.length (times (one_char c) m) = m.
Proof. induction m as [|m IH]; simpl; [reflexivity|now rewrite IH]. Qed.

(** A string whose first [m] characters are [c] begins with [c] written
    [m] times. *)
Lemma run_prefix (c : ascii) :
  forall m r, (forall k, (k < m)%nat -> char_at r k = Ok c) ->
  exists r', r = times (one_char c) m ++ r'.
Proof.
  induction m as [|m IH]; intros r H.
  - now exists r.
  - destruct r as [|x r].
    + specialize (H 0%nat ltac:(lia)). discriminate H.
    + assert (Hx : x = c).
      { specialize (H 0%nat ltac:(lia)). now inversion H. }
      subst x. destruct (IH r) as [r' Hr'].
      * intros k Hk. apply (H (S k)). lia.
      * exists r'. simpl. now rewrite <- Hr'.
Qed.

Lemma expand_app (a b : list token) :
  expand (a ++ b)%list = expand a ++ expand b.
Proof.
  unfold expand. induction a as [|t a IH]; simpl; [reflexivity|].
  now rewrite IH, append_assoc.
Qed.

Lemma expand_one (c : ascii) (m : nat) :
  expand [(one_char c, Z.of_nat m)] = times (one_char c) m.
Proof.
  unfold expand, expand_tok. cbn [fold_right fst snd].
  now rewrite Nat2Z.id, append_nil_r.
Qed.

Lemma append_same_length (a r s : string) :
  s = a ++ r -> String.length a = String.length s -> s = a.
Proof.
  intros -> H. rewrite length_append in H.
  destruct r; [apply append_nil_r|simpl in H; lia].
Qed.

(** At the exit of the loop the tokens, written out, are a prefix of the
    operator string of the same length as the string. *)
Lemma fold_runs_prefix (ops : string) :
  exists toks rest, fold_runs ops = Ok toks /\
    ops = expand toks ++ rest /\
    String.length (expand toks) = String.length ops.
Proof.
  destruct (fold_runs_runs ops
    (fun out i => exists rest,
       ops = expand out ++ rest /\ String.length (expand out) = i))
    as [toks [Hr [rest [Hops Hlen]]]].
  - intros out i c j [rest [Hops Hlen]] _ Hj Hall _.
    destruct (run_prefix c (j - i) rest) as [r' Hr'].
    { intros k Hk. rewrite <- (Hall (i + k)%nat) by lia.
      rewrite <- Hlen. rewrite Hops at 1. now rewrite char_at_append. }
    exists r'. rewrite expand_app, expand_one, append_assoc, <- Hr'.
    split; [exact Hops|].
    rewrite length_append, times_one_char_length. lia.
  - intros out i c [rest [Hops Hlen]] Hc _ Hi.
    destruct (run_prefix c 1 rest) as [r' Hr'].
    { intros k Hk. replace k with 0%nat by lia.
      rewrite <- Hc. rewrite <- Hlen. rewrite Hops at 1.
      rewrite <- (char_at_append (expand out) rest 0). f_equal. lia. }
    exists r'. change 1%Z with (Z.of_nat 1).
    rewrite expand_app, (expand_one c 1), append_assoc, <- Hr'.
    split; [exact Hops|].
    rewrite length_append, times_one_char_length. lia.
  - exists ops. now split.
  - now exists toks, rest.
Qed.

(** X3. Folding loses nothing: writing out every token of the result, its
    operator count times, gives the operator string back.  For any
    string. *)
Theorem fold_runs_round_trip :
  forall ops : string,
  exists toks, fold_runs ops = Ok toks /\ expand toks = ops.
Proof.
  intros ops.
  destruct (fold_runs_prefix ops) as [toks [rest [Hr [Hops Hlen]]]].
  exists toks. split; [exact Hr|].
  symmetry. now apply (append_same_length _ rest).
Qed.

Lemma last_op_snoc (out : list token) (t : token) :
  last_op (out ++ [t])%list = Some (fst t).
Proof. unfold last_op. now rewrite rev_unit. Qed.

Lemma last_op_cons (a b : token) (l : list token) :
  last_op (a :: b :: l) = last_op (b :: l).
Proof.
  unfold last_op. cbn [rev].
  destruct (rev l ++ [b])%list as [|x r] eqn:E.
  - destruct (rev l); discriminate E.
  - reflexivity.
Qed.

Lemma runs_maximal_cons (a b : token) (l : list token) :
  runs_maximal (a :: b :: l) =
  negb (is_run_op (fst a) && (fst a =? fst b)) && runs_maximal (b :: l).
Proof. reflexivity. Qed.

Lemma runs_maximal_snoc (out : list token) (t : token) :
  runs_maximal (out ++ [t])%list =
  runs_maximal out &&
  match last_op out with
  | None => true
  | Some o => negb (is_run_op o && (o =? fst t))
  end.
Proof.
  induction out as [|a out IH].
  - reflexivity.
  - destruct out as [|b out].
    + change ([a] ++ [t])%list with [a; t].
      rewrite runs_maximal_cons. unfold last_op. cbn [rev app runs_maximal].
      now rewrite !andb_true_r.
    + change ((a :: b :: out) ++ [t])%list
        with (a :: b :: (out ++ [t]))%list.
      rewrite !runs_maximal_cons, last_op_cons.
      change (b :: out ++ [t])%list with ((b :: out) ++ [t])%list.
      rewrite IH. now rewrite !andb_assoc.
Qed.

Lemma one_char_inj (a b : ascii) : one_char a = one_char b -> a = b.
Proof. unfold one_char. now inversion 1. Qed.

(** X4. Runs are maximal: in the result of folding, no two neighbouring
    tokens carry the same move, increment or decrement operator. *)
Theorem fold_runs_maximal :
  forall ops : string,
  exists toks, fold_runs ops = Ok toks /\ runs_maximal toks = true.
Proof.
  intros ops.
  destruct (fold_runs_runs ops
    (fun out i =>
       runs_maximal out = true /\
       forall c, last_op out = Some (one_char c) ->
                 in_chars c "+-<>" = true ->
                 (i < String.length ops)%nat -> char_at ops i <> Ok c))
    as [toks [Hr [Hmax _]]].
  - intros out i c j [Hmax Hlast] Hrun Hj Hall Hstop. split.
    + rewrite runs_maximal_snoc, Hmax. cbn [andb fst].
      destruct (last_op out) as [o|] eqn:Ho; [|reflexivity].
      destruct (String.eqb_spec o (one_char c)) as [->|Hne];
        [|now rewrite andb_false_r].
      exfalso. apply (Hlast c eq_refl Hrun); [lia|].
      apply Hall. lia.
    + intros c' Hl Hrun' Hjn. rewrite last_op_snoc in Hl.
      cbn [fst] in Hl.
      assert (Hc : c' = c) by (apply one_char_inj; congruence). subst c'.
      now apply Hstop.
  - intros out i c [Hmax Hlast] Hc Hrun Hi. split.
    + rewrite runs_maximal_snoc, Hmax. cbn [andb fst].
      destruct (last_op out) as [o|] eqn:Ho; [|reflexivity].
      destruct (String.eqb_spec o (one_char c)) as [->|Hne];
        [|now rewrite andb_false_r].
      now rewrite is_run_op_one_char, Hrun.
    + intros c' Hl Hrun' _. rewrite last_op_snoc in Hl.
      cbn [fst] in Hl.
      assert (Hc' : c' = c) by (apply one_char_inj; congruence). subst c'.
      rewrite Hrun in Hrun'. discriminate Hrun'.
  - split; [reflexivity|]. intros c H. discriminate H.
  - now exists toks.
Qed.

(** ** The desugarer and the whole front end, read back *)

Lemma resugar_collapse (ts : list token) :
  forallb (fun t => negb (tok_eqb t CLR)) ts = true ->
  resugar (collapse ts) = ts.
Proof.
  induction ts as [|rest IH|t rest Hs IH] using scan_ind; intros H.
  - reflexivity.
  - rewrite collapse_hit by reflexivity.
    change (skipn 3 (LOOP_START :: DEC_ONE :: LOOP_END :: rest)) with rest.
    cbn [forallb] in H. repeat (apply andb_true_iff in H; destruct H as [_ H]).
    unfold resugar in *. cbn [flat_map]. rewrite IH by exact H. reflexivity.
  - rewrite (collapse_miss _ _ Hs).
    cbn [forallb] in H. apply andb_true_iff in H. destruct H as [Ht H].
    unfold resugar in *. cbn [flat_map]. rewrite IH by exact H.
    apply negb_true_iff in Ht. now rewrite Ht.
Qed.

(** X5. Desugaring loses nothing: on a token sequence with no clear-cell
    token of its own, putting the idiom back for every clear-cell token of
    the result gives the input back. *)
Theorem desugar_round_trip :
  forall ts : list token,
  forallb (fun t => negb (tok_eqb t CLR)) ts = true ->
  exists out, desugar ts = Ok out /\ resugar out = ts.
Proof.
  intros ts H. exists (collapse ts).
  split; [apply desugar_collapse|now apply resugar_collapse].
Qed.

Lemma desugar_round_trip_witness :
  exists out,
    desugar [("+", 2%Z); ("[", 1%Z); ("-", 1%Z); ("]", 1%Z); (">", 1%Z)]
      = Ok out /\
    resugar out =
      [("+", 2%Z); ("[", 1%Z); ("-", 1%Z); ("]", 1%Z); (">", 1%Z)].
Proof.
  apply (desugar_round_trip
           [("+", 2%Z); ("[", 1%Z); ("-", 1%Z); ("]", 1%Z); (">", 1%Z)]).
  reflexivity.
Defined.

Lemma single_char_not_clr (t : token) :
  String.length (fst t) = 1%nat -> negb (tok_eqb t CLR) = true.
Proof.
  destruct t as [[|a [|b op]] n]; simpl; try discriminate. intros _.
  unfold tok_eqb. cbn [fst snd CLR]. simpl.
  now destruct (Ascii.eqb a "C"%char).
Qed.

(** X6. The front end loses nothing but the characters that are not
    operators: the tokens it returns, with the idiom put back for every
    clear-cell token and every token written out count times, are the
    normalized source. *)
Theorem front_end_round_trip :
  forall src : string,
  exists toks, front_end src = Ok toks /\
    expand (resugar toks) = sanitize src.
Proof.
  intros src. unfold front_end. cbn [bind].
  destruct (fold_runs_prefix (sanitize src))
    as [toks [rest [Hr [Hops Hlen]]]].
  assert (Hexp : expand toks = sanitize src)
    by (symmetry; now apply (append_same_length _ rest)).
  destruct (fold_runs_tokens_ok (sanitize src)) as [toks' [Hr' Hall]].
  rewrite Hr in Hr'. inversion Hr'. subst toks'.
  rewrite Hr. cbn [bind]. exists (collapse toks).
  split; [apply desugar_collapse|].
  rewrite resugar_collapse; [exact Hexp|].
  apply forallb_forall. rewrite Forall_forall in Hall.
  intros t Ht. apply single_char_not_clr. now apply Hall.
Qed.

Lemma all_chars_char_at (p : ascii -> bool) (s : string) :
  all_chars p s = true ->
  forall k c, char_at s k = Ok c -> p c = true.
Proof.
  unfold char_at. induction s as [|x s IH]; intros H k c Hk.
  - destruct k; discriminate Hk.
  - cbn [all_chars] in H. apply andb_true_iff in H. destruct H as [Hx Hs].
    destruct k as [|k]; simpl in Hk.
    + inversion Hk. now subst.
    + now apply (IH Hs k).
Qed.

Lemma known_op_one_char (c : ascii) :
  in_chars c BF_OPS = true -> known_op (one_char c) = true.
Proof.
  unfold in_chars. simpl. rewrite orb_false_r. intros H.
  repeat rewrite orb_true_iff in H. repeat rewrite Ascii.eqb_eq in H.
  repeat (destruct H as [H|H]; [subst c; reflexivity|]).
  subst c. reflexivity.
Qed.

(** X7. Every token that the front end hands to an emitter carries one of
    the nine operators the emitters test for, whatever the source text:
    no token falls through the chain of tests. *)
Theorem front_end_known_ops :
  forall src : string,
  exists toks, front_end src = Ok toks /\
    forallb (fun t => known_op (fst t)) toks = true.
Proof.
  intros src. unfold front_end. cbn [bind].
  destruct (fold_runs_runs (sanitize src)
    (fun out _ => Forall (fun t => known_op (fst t) = true) out))
    as [toks [Hr Hall]].
  - intros out i c j HI _ Hj Hrun _.
    apply Forall_app. split; [exact HI|]. constructor; [|constructor].
    cbn [fst]. apply known_op_one_char.
    apply (all_chars_char_at _ (sanitize src)
             (sanitize_all_operators src) i).
    apply Hrun. lia.
  - intros out i c HI Hc _ _.
    apply Forall_app. split; [exact HI|]. constructor; [|constructor].
    cbn [fst]. apply known_op_one_char.
    exact (all_chars_char_at _ (sanitize src)
             (sanitize_all_operators src) i c Hc).
  - constructor.
  - rewrite Hr. cbn [bind]. exists (collapse toks).
    split; [apply desugar_collapse|].
    apply (collapse_preserves (fun t => known_op (fst t))); [reflexivity|].
    apply forallb_forall. rewrite Forall_forall in Hall. exact Hall.
Qed.

(** ** The emitters and the input flag *)

Lemma fold_left_agree {S T : Type} (f g : S -> T -> S) (ts : list T) :
  Forall (fun t => forall s, f s t = g s t) ts ->
  forall s, fold_left f ts s = fold_left g ts s.
Proof.
  induction 1 as [|t ts Ht _ IH]; intros s; simpl.
  - reflexivity.
  - now rewrite Ht, IH.
Qed.

(** Off or on, the flag makes no difference at a token that is not an
    input token. *)
Ltac gate_step step :=
  intros [ind L] [op n] H; cbn [fst] in H;
  apply String.eqb_neq in H; unfold step; rewrite H; reflexivity.

Lemma step_go_gate st t :
  fst t <> "," -> step_go false st t = step_go true st t.
Proof. revert st t. gate_step step_go. Qed.

Lemma step_cpp_gate st t :
  fst t <> "," -> step_cpp false st t = step_cpp true st t.
Proof. revert st t. gate_step step_cpp. Qed.

Lemma step_csharp_gate st t :
  fst t <> "," -> step_csharp false st t = step_csharp true st t.
Proof. revert st t. gate_step step_csharp. Qed.

Lemma step_rust_gate st t :
  fst t <> "," -> step_rust false st t = step_rust true st t.
Proof. revert st t. gate_step step_rust. Qed.

Lemma gate_never_drops (step : bool -> emit_state -> token -> emit_state) :
  (forall st t, fst t <> "," -> step false st t = step true st t) ->
  forall ts st,
  fold_left (step (has_input ts)) ts st = fold_left (step true) ts st.
Proof.
  intros Hstep ts st. destruct (has_input ts) eqn:Hin; [reflexivity|].
  apply fold_left_agree. apply has_input_false in Hin.
  eapply Forall_impl; [|exact Hin].
  intros t Ht s. now apply Hstep.
Qed.

(** X8. In the Go, C++, C# and Rust emitters the test [and has_in] on the
    branch of the input token never suppresses a translation: for every
    token sequence, the token loop run with the flag computed from the
    sequence does what the loop does with the flag on. *)
Theorem input_gate_never_drops :
  forall (ts : list token) (st : emit_state),
    fold_left (step_go (has_input ts)) ts st =
      fold_left (step_go true) ts st /\
    fold_left (step_cpp (has_input ts)) ts st =
      fold_left (step_cpp true) ts st /\
    fold_left (step_csharp (has_input ts)) ts st =
      fold_left (step_csharp true) ts st /\
    fold_left (step_rust (has_input ts)) ts st =
      fold_left (step_rust true) ts st.
Proof.
  intros ts st. repeat split.
  - apply (gate_never_drops step_go), step_go_gate.
  - apply (gate_never_drops step_cpp), step_cpp_gate.
  - apply (gate_never_drops step_csharp), step_csharp_gate.
  - apply (gate_never_drops step_rust), step_rust_gate.
Qed.

Lemma has_input_collapse (ts : list token) :
  has_input (collapse ts) = has_input ts.
Proof.
  induction ts as [|rest IH|t rest Hs IH] using scan_ind.
  - reflexivity.
  - rewrite collapse_hit by reflexivity.
    change (skipn 3 (LOOP_START :: DEC_ONE :: LOOP_END :: rest)) with rest.
    unfold has_input in *. cbn [existsb]. rewrite IH. reflexivity.
  - rewrite (collapse_miss _ _ Hs).
    unfold has_input in *. cbn [existsb]. now rewrite IH.
Qed.

(** X9. Desugaring never changes whether a program reads input: the
    flag [has_in] of the emitters is the same before and after. *)
Theorem desugar_keeps_has_input :
  forall ts : list token,
  exists out, desugar ts = Ok out /\ has_input out = has_input ts.
Proof.
  intros ts. exists (collapse ts).
  split; [apply desugar_collapse|apply has_input_collapse].
Qed.

(** ** Tokens the emitters do not know *)

Lemma fold_left_filter {S T : Type} (f : S -> T -> S) (p : T -> bool) :
  (forall s t, p t = false -> f s t = s) ->
  forall ts s, fold_left f (filter p ts) s = fold_left f ts s.
Proof.
  intros Hskip. induction ts as [|t ts IH]; intros s; simpl.
  - reflexivity.
  - destruct (p t) eqn:Hp; simpl.
    + apply IH.
    + rewrite IH. now rewrite (Hskip s t Hp).
Qed.

(** Decides the test of an operator against a literal; where they are
    equal, [known_op] computes to true. *)
Ltac unknown_step step :=
  intros [ind L] [op n] H; cbn [fst] in H; unfold step;
  repeat match goal with
         | |- context [String.eqb op ?s] =>
             destruct (String.eqb_spec op s) as [E|_];
             [rewrite E in H; discriminate H|]
         end;
  reflexivity.

Lemma step_python_unknown st t :
  known_op (fst t) = false -> step_python st t = st.
Proof. revert st t. unknown_step step_python. Qed.

Lemma step_go_unknown h st t :
  known_op (fst t) = false -> step_go h st t = st.
Proof. revert st t. unknown_step step_go. Qed.

Lemma step_cpp_unknown h st t :
  known_op (fst t) = false -> step_cpp h st t = st.
Proof. revert st t. unknown_step step_cpp. Qed.

Lemma step_csharp_unknown h st t :
  known_op (fst t) = false -> step_csharp h st t = st.
Proof. revert st t. unknown_step step_csharp. Qed.

Lemma step_lua_unknown st t :
  known_op (fst t) = false -> step_lua st t = st.
Proof. revert st t. unknown_step step_lua. Qed.

Lemma step_ruby_unknown st t :
  known_op (fst t) = false -> step_ruby st t = st.
Proof. revert st t. unknown_step step_ruby. Qed.

Lemma step_rust_unknown h st t :
  known_op (fst t) = false -> step_rust h st t = st.
Proof. revert st t. unknown_step step_rust. Qed.

Lemma has_input_known (ts : list token) :
  has_input (filter (fun t => known_op (fst t)) ts) = has_input ts.
Proof.
  unfold has_input. induction ts as [|t ts IH]; simpl; [reflexivity|].
  destruct (known_op (fst t)) eqn:Hk; simpl; [now rewrite IH|].
  rewrite IH. destruct (String.eqb_spec (fst t) ",") as [E|_];
    [rewrite E in Hk; discriminate Hk|reflexivity].
Qed.

(** X10. A token whose operator is none of the nine leaves no trace in
    any generated program: every emitter returns the text it returns for
    the sequence without such tokens. *)
Theorem unknown_tokens_ignored :
  forall ts : list token,
  let known := filter (fun t => known_op (fst t)) ts in
  emit_python known = emit_python ts /\
  emit_go known = emit_go ts /\
  emit_cpp known = emit_cpp ts /\
  emit_csharp known = emit_csharp ts /\
  emit_lua known = emit_lua ts /\
  emit_ruby known = emit_ruby ts /\
  emit_rust known = emit_rust ts.
Proof.
  intros ts known. subst known.
  unfold emit_python, emit_go, emit_cpp, emit_csharp, emit_lua, emit_ruby,
    emit_rust.
  rewrite has_input_known.
  rewrite (fold_left_filter step_python) by (intros; now apply step_python_unknown).
  rewrite (fold_left_filter (step_go _)) by (intros; now apply step_go_unknown).
  rewrite (fold_left_filter (step_cpp _)) by (intros; now apply step_cpp_unknown).
  rewrite (fold_left_filter (step_csharp _))
    by (intros; now apply step_csharp_unknown).
  rewrite (fold_left_filter step_lua) by (intros; now apply step_lua_unknown).
  rewrite (fold_left_filter step_ruby) by (intros; now apply step_ruby_unknown).
  rewrite (fold_left_filter (step_rust _)) by (intros; now apply step_rust_unknown).
  repeat split.
Qed.

(** ** Nesting depth on balanced programs *)

Ltac depth_effect_step step :=
  intros ind L op n; unfold step, depth_effect;
  repeat match goal with
         | |- context [String.eqb op ?s] =>
             destruct (String.eqb_spec op s) as [E|_];
             [try rewrite E; cbn; branches; reflexivity|]
         end;
  reflexivity.

Lemma step_python_effect ind L op n :
  fst (step_python (ind, L) (op, n)) = depth_effect 0 ind op.
Proof. revert ind L op n. depth_effect_step step_python. Qed.

Lemma step_go_effect h ind L op n :
  fst (step_go h (ind, L) (op, n)) = depth_effect 1 ind op.
Proof. revert ind L op n. depth_effect_step step_go. Qed.

Lemma step_cpp_effect h ind L op n :
  fst (step_cpp h (ind, L) (op, n)) = depth_effect 1 ind op.
Proof. revert ind L op n. depth_effect_step step_cpp. Qed.

Lemma step_csharp_effect h ind L op n :
  fst (step_csharp h (ind, L) (op, n)) = depth_effect 1 ind op.
Proof. revert ind L op n. depth_effect_step step_csharp. Qed.

Lemma step_lua_effect ind L op n :
  fst (step_lua (ind, L) (op, n)) = depth_effect 0 ind op.
Proof. revert ind L op n. depth_effect_step step_lua. Qed.

Lemma step_ruby_effect ind L op n :
  fst (step_ruby (ind, L) (op, n)) = depth_effect 0 ind op.
Proof. revert ind L op n. depth_effect_step step_ruby. Qed.

Lemma step_rust_effect h ind L op n :
  fst (step_rust h (ind, L) (op, n)) = depth_effect 1 ind op.
Proof. revert ind L op n. depth_effect_step step_rust. Qed.

(** On loop tokens balanced from depth [d], the emitter comes back from
    [floor + d] to its floor. *)
Lemma balanced_depth (step : emit_state -> token -> emit_state) (floor : Z) :
  (forall ind L op n,
     fst (step (ind, L) (op, n)) = depth_effect floor ind op) ->
  forall ts d L, (0 <= d)%Z -> balanced_from d ts = true ->
  depth_after step (floor + d) L ts = floor.
Proof.
  intros Hstep. unfold depth_after.
  induction ts as [|[op n] ts IH]; intros d L Hd Hb.
  - cbn [balanced_from] in Hb. apply Z.eqb_eq in Hb. simpl. lia.
  - cbn [fold_left].
    specialize (Hstep (floor + d)%Z L op n).
    destruct (step ((floor + d)%Z, L) (op, n)) as [ind' L'].
    cbn [fst] in Hstep. subst ind'.
    cbn [balanced_from fst] in Hb. unfold depth_effect.
    destruct (op =? "[").
    + replace (floor + d + 1)%Z with (floor + (d + 1))%Z by lia.
      apply IH; [lia|exact Hb].
    + destruct (op =? "]").
      * apply andb_true_iff in Hb. destruct Hb as [Hpos Hb].
        apply Z.ltb_lt in Hpos.
        replace (Z.max floor (floor + d - 1)) with (floor + (d - 1))%Z by lia.
        apply IH; [lia|exact Hb].
      * apply IH; [lia|exact Hb].
Qed.

(** X11. On a token sequence whose loop tokens are balanced, every
    emitter is back at its floor depth when the token loop ends; so the
    C++ emitter writes its [return 0;] and the Rust emitter its flush one
    level deep, directly inside [main]. *)
Theorem balanced_returns_to_floor :
  forall (ts : list token) (h : bool) (L : list string),
  balanced ts = true ->
  (depth_after step_python 0 L ts = 0 /\
   depth_after (step_go h) 1 L ts = 1 /\
   depth_after (step_cpp h) 1 L ts = 1 /\
   depth_after (step_csharp h) 1 L ts = 1 /\
   depth_after step_lua 0 L ts = 0 /\
   depth_after step_ruby 0 L ts = 0 /\
   depth_after (step_rust h) 1 L ts = 1)%Z /\
  (exists body, emit_cpp ts = join (body ++ ["    return 0;"; "}"; ""])) /\
  (exists body,
     emit_rust ts = join (body ++ ["    out.flush().unwrap();"; "}"; ""])).
Proof.
  intros ts h L Hb. unfold balanced in Hb.
  assert (Hd : forall step floor,
    (forall ind L op n,
       fst (step (ind, L) (op, n)) = depth_effect floor ind op) ->
    forall L, depth_after step floor L ts = floor).
  { intros step floor Hstep L0.
    replace floor with (floor + 0)%Z at 1 by lia.
    now apply balanced_depth. }
  split; [|split].
  - repeat split.
    + apply Hd, step_python_effect.
    + apply Hd, step_go_effect.
    + apply Hd, step_cpp_effect.
    + apply Hd, step_csharp_effect.
    + apply Hd, step_lua_effect.
    + apply Hd, step_ruby_effect.
    + apply Hd, step_rust_effect.
  - pose proof (Hd (step_cpp (has_input ts)) 1%Z
                  (step_cpp_effect (has_input ts)) cpp_head) as H.
    unfold depth_after in H. unfold emit_cpp.
    destruct (fold_left (step_cpp (has_input ts)) ts (1%Z, cpp_head))
      as [ind body].
    cbn [fst] in H. subst ind. exists body.
    unfold w, e. now rewrite <- !app_assoc.
  - pose proof (Hd (step_rust (has_input ts)) 1%Z
                  (step_rust_effect (has_input ts))
                  (rust_head (has_input ts))) as H.
    unfold depth_after in H. unfold emit_rust.
    destruct (fold_left (step_rust (has_input ts)) ts
                (1%Z, rust_head (has_input ts))) as [ind body].
    cbn [fst] in H. subst ind. exists body.
    unfold w, e. now rewrite <- !app_assoc.
Qed.

Lemma balanced_returns_to_floor_witness :
  (depth_after step_python 0 []
     [("[", 1%Z); ("[", 1%Z); ("-", 3%Z); ("]", 1%Z); ("]", 1%Z)] = 0 /\
   depth_after (step_go true) 1 []
     [("[", 1%Z); ("[", 1%Z); ("-", 3%Z); ("]", 1%Z); ("]", 1%Z)] = 1 /\
   depth_after (step_cpp true) 1 []
     [("[", 1%Z); ("[", 1%Z); ("-", 3%Z); ("]", 1%Z); ("]", 1%Z)] = 1 /\
   depth_after (step_csharp true) 1 []
     [("[", 1%Z); ("[", 1%Z); ("-", 3%Z); ("]", 1%Z); ("]", 1%Z)] = 1 /\
   depth_after step_lua 0 []
     [("[", 1%Z); ("[", 1%Z); ("-", 3%Z); ("]", 1%Z); ("]", 1%Z)] = 0 /\
   depth_after step_ruby 0 []
     [("[", 1%Z); ("[", 1%Z); ("-", 3%Z); ("]", 1%Z); ("]", 1%Z)] = 0 /\
   depth_after (step_rust true) 1 []
     [("[", 1%Z); ("[", 1%Z); ("-", 3%Z); ("]", 1%Z); ("]", 1%Z)] = 1)%Z.
Proof.
  apply (balanced_returns_to_floor
           [("[", 1%Z); ("[", 1%Z); ("-", 3%Z); ("]", 1%Z); ("]", 1%Z)]
           true []).
  reflexivity.
Defined.

(** An unclosed loop leaves the C++ emitter one level too deep. *)
Example unclosed_loop_indents_return :
  emit_cpp [("[", 1%Z)] =
  join (cpp_head ++
        [ "    while(tape[dp] != 0){"; "        return 0;"; "}"; "" ])%list.
Proof. reflexivity. Qed.

(** ** Lua and Ruby without an input token *)

Lemma fold_left_invariant_on {S T : Type} (P : S -> Prop) (Q : T -> Prop)
  (f : S -> T -> S) :
  (forall s t, Q t -> P s -> P (f s t)) ->
  forall ts s, Forall Q ts -> P s -> P (fold_left f ts s).
Proof.
  intros Hstep. induction ts as [|t ts IH]; intros s Hts Hs; simpl.
  - exact Hs.
  - inversion Hts as [|? ? Ht Hts']. subst. apply IH; [exact Hts'|].
    now apply Hstep.
Qed.

(** The shape of a line that begins with the count. *)
Lemma line_count_front (m : string) (ind n : Z) (post : string) :
  clean m = true -> occurs m post = false ->
  occurs m (indent ind ++ dec n ++ post) = false.
Proof.
  intros Hm Hpost.
  apply (line_count m ind n "" post Hm); [now apply occurs_empty|exact Hpost].
Qed.

(** A step of an emitter without gate, at a token that is not an input
    token, appends only lines free of the mark. *)
Ltac free_step_on step :=
  intros [ind L] [op n] Hne HL; cbn [fst snd] in *;
  apply String.eqb_neq in Hne; unfold step, e; rewrite Hne;
  cbv zeta; branches; cbn [snd]; try exact HL;
  (apply Forall_app; split; [exact HL|]);
  (constructor;
   [first [free_line | apply line_count_front; reflexivity]|constructor]).

Lemma lua_no_input_free (m : string) (ts : list token) :
  clean m = true ->
  occurs m "local tape = {} for i=1,300000 do tape[i]=0 end" = false /\
  occurs m "local dp = 1" = false /\
  occurs m "local function getchar() return 0 end" = false ->
  (forall st t, fst t <> "," ->
     Forall (fun l => occurs m l = false) (snd st) ->
     Forall (fun l => occurs m l = false) (snd (step_lua st t))) ->
  has_input ts = false -> occurs m (emit_lua ts) = false.
Proof.
  intros Hm [H1 [H2 H3]] Hstep Hin. unfold emit_lua. rewrite Hin.
  assert (HL : Forall (fun l => occurs m l = false)
                 (snd (fold_left step_lua ts (0%Z, lua_head false)))).
  { apply (fold_left_invariant_on
             (fun st : emit_state =>
                Forall (fun l => occurs m l = false) (snd st))
             (fun t => fst t <> ",")).
    - exact Hstep.
    - now apply has_input_false.
    - cbn [snd lua_head]. repeat constructor; assumption. }
  destruct (fold_left step_lua ts (0%Z, lua_head false)) as [ind L].
  cbn [snd] in HL. apply join_free; [exact Hm|]. unfold w.
  apply Forall_app. split; [exact HL|].
  repeat constructor. now apply occurs_empty.
Qed.

Lemma ruby_no_input_free (m : string) (ts : list token) :
  clean m = true ->
  occurs m "tape = Array.new(300000, 0)" = false /\
  occurs m "dp = 0" = false /\
  occurs m "def getchar; 0; end" = false ->
  (forall st t, fst t <> "," ->
     Forall (fun l => occurs m l = false) (snd st) ->
     Forall (fun l => occurs m l = false) (snd (step_ruby st t))) ->
  has_input ts = false -> occurs m (emit_ruby ts) = false.
Proof.
  intros Hm [H1 [H2 H3]] Hstep Hin. unfold emit_ruby. rewrite Hin.
  assert (HL : Forall (fun l => occurs m l = false)
                 (snd (fold_left step_ruby ts (0%Z, ruby_head false)))).
  { apply (fold_left_invariant_on
             (fun st : emit_state =>
                Forall (fun l => occurs m l = false) (snd st))
             (fun t => fst t <> ",")).
    - exact Hstep.
    - now apply has_input_false.
    - cbn [snd ruby_head]. repeat constructor; assumption. }
  destruct (fold_left step_ruby ts (0%Z, ruby_head false)) as [ind L].
  cbn [snd] in HL. apply join_free; [exact Hm|]. unfold w.
  apply Forall_app. split; [exact HL|].
  repeat constructor. now apply occurs_empty.
Qed.

(** A step at a token that is not an input token appends to the lines
    behind the head at most one line, which does not hold the mark. *)
Ltac body_step_on step :=
  intros [ind L] [op n] Hne [body [HL Hb]]; cbn [fst snd] in *; subst L;
  apply String.eqb_neq in Hne; unfold step, e; rewrite Hne;
  cbv zeta; branches; cbn [snd];
  first
    [ exists body; split; [reflexivity|exact Hb]
    | eexists; split;
      [ rewrite <- app_assoc; reflexivity
      | apply Forall_app; split; [exact Hb|];
        constructor;
        [first [free_line | apply line_count_front; reflexivity]
        |constructor] ] ].

Lemma loop_body_free (step : emit_state -> token -> emit_state)
  (head : list string) (m : string) :
  (forall st t, fst t <> "," ->
     (exists body, snd st = (head ++ body)%list /\
        Forall (fun l => occurs m l = false) body) ->
     (exists body, snd (step st t) = (head ++ body)%list /\
        Forall (fun l => occurs m l = false) body)) ->
  forall ts ind, has_input ts = false ->
  exists body,
    snd (fold_left step ts (ind, head)) = (head ++ body)%list /\
    Forall (fun l => occurs m l = false) body.
Proof.
  intros Hstep ts ind Hin.
  apply (fold_left_invariant_on
           (fun st : emit_state =>
              exists body, snd st = (head ++ body)%list /\
                Forall (fun l => occurs m l = false) body)
           (fun t => fst t <> ",")).
  - exact Hstep.
  - now apply has_input_false.
  - exists []. cbn [snd]. split; [now rewrite app_nil_r|constructor].
Qed.

(** X12. The Lua and the Ruby emitter have no gate on the input token but
    a stub.  For every token sequence with no input token, their program
    is the head whose [getchar] is the stub returning 0, then lines none
    of which mentions [getchar], so that no translation of an input token
    is emitted, then the last, empty line; and the program contains none
    of the reads of standard input that these emitters write when there is
    an input token. *)
Theorem no_input_token_stub_reader :
  forall ts : list token,
  has_input ts = false ->
  (exists body,
     emit_lua ts =
       join ([ "local tape = {} for i=1,300000 do tape[i]=0 end";
               "local dp = 1";
               "local function getchar() return 0 end" ]
             ++ body ++ [""])%list /\
     Forall (fun l => occurs "getchar" l = false) body) /\
  (exists body,
     emit_ruby ts =
       join ([ "tape = Array.new(300000, 0)"; "dp = 0";
               "def getchar; 0; end" ]
             ++ body ++ [""])%list /\
     Forall (fun l => occurs "getchar" l = false) body) /\
  none_occurs lua_input_marks (emit_lua ts) = true /\
  none_occurs ruby_input_marks (emit_ruby ts) = true.
Proof.
  intros ts Hin. split; [|split].
  - destruct (loop_body_free step_lua (lua_head false) "getchar"
                ltac:(body_step_on step_lua) ts 0%Z Hin) as [body [HL Hb]].
    exists body. split; [|exact Hb].
    unfold emit_lua. rewrite Hin.
    destruct (fold_left step_lua ts (0%Z, lua_head false)) as [ind L].
    cbn [snd] in HL. subst L. unfold w, lua_head.
    now rewrite <- app_assoc.
  - destruct (loop_body_free step_ruby (ruby_head false) "getchar"
                ltac:(body_step_on step_ruby) ts 0%Z Hin) as [body [HL Hb]].
    exists body. split; [|exact Hb].
    unfold emit_ruby. rewrite Hin.
    destruct (fold_left step_ruby ts (0%Z, ruby_head false)) as [ind L].
    cbn [snd] in HL. subst L. unfold w, ruby_head.
    now rewrite <- app_assoc.
  - unfold none_occurs, lua_input_marks, ruby_input_marks.
    cbn [forallb]. rewrite !andb_true_r.
    split; apply andb_true_iff; split; apply negb_true_iff.
    + apply lua_no_input_free;
        [reflexivity|repeat split|free_step_on step_lua|exact Hin].
    + apply lua_no_input_free;
        [reflexivity|repeat split|free_step_on step_lua|exact Hin].
    + apply ruby_no_input_free;
        [reflexivity|repeat split|free_step_on step_ruby|exact Hin].
    + apply ruby_no_input_free;
        [reflexivity|repeat split|free_step_on step_ruby|exact Hin].
Qed.

Lemma no_input_token_stub_reader_witness :
  (exists body,
     emit_lua [("+", 2%Z); ("[", 1%Z); (".", 1%Z); ("]", 1%Z)] =
       join ([ "local tape = {} for i=1,300000 do tape[i]=0 end";
               "local dp = 1";
               "local function getchar() return 0 end" ]
             ++ body ++ [""])%list /\
     Forall (fun l => occurs "getchar" l = false) body) /\
  (exists body,
     emit_ruby [("+", 2%Z); ("[", 1%Z); (".", 1%Z); ("]", 1%Z)] =
       join ([ "tape = Array.new(300000, 0)"; "dp = 0";
               "def getchar; 0; end" ]
             ++ body ++ [""])%list /\
     Forall (fun l => occurs "getchar" l = false) body) /\
  none_occurs lua_input_marks
    (emit_lua [("+", 2%Z); ("[", 1%Z); (".", 1%Z); ("]", 1%Z)]) = true /\
  none_occurs ruby_input_marks
    (emit_ruby [("+", 2%Z); ("[", 1%Z); (".", 1%Z); ("]", 1%Z)]) = true.
Proof.
  apply (no_input_token_stub_reader
           [("+", 2%Z); ("[", 1%Z); (".", 1%Z); ("]", 1%Z)]).
  reflexivity.
Defined.

(** With an input token the translation is there, and it mentions
    [getchar]. *)
Example input_token_calls_getchar :
  emit_lua [(",", 1%Z)] =
    join [ "local tape = {} for i=1,300000 do tape[i]=0 end";
           "local dp = 1";
           "local function getchar() local c=io.read(1); if c==nil then return 0 else return string.byte(c) end end";
           "tape[dp] = getchar()"; "" ] /\
  emit_ruby [(",", 1%Z)] =
    join [ "tape = Array.new(300000, 0)"; "dp = 0";
           "def getchar; c=$stdin.read(1); c ? c.ord : 0; end";
           "tape[dp] = getchar"; "" ].
Proof. split; reflexivity. Qed.

Example input_token_brings_stub_reader :
  none_occurs lua_input_marks (emit_lua [(",", 1%Z)]) = false /\
  none_occurs ruby_input_marks (emit_ruby [(",", 1%Z)]) = false.
Proof. split; reflexivity. Qed.

(** ** Dispatch, file names and commands *)

Lemma front_end_returns (src : string) :
  exists toks, front_end src = Ok toks.
Proof.
  unfold front_end. cbn [bind].
  destruct (fold_runs_inv (sanitize src) (fun _ _ => True))
    as [toks [Hr _]]; auto.
  rewrite Hr. cbn [bind]. exists (collapse toks). apply desugar_collapse.
Qed.

Lemma in_targets_cases (c : string) :
  in_targets c = true ->
  c = "1" \/ c = "2" \/ c = "3" \/ c = "4" \/ c = "5" \/ c = "6" \/
  c = "7" \/ c = "0".
Proof.
  unfold in_targets, TARGETS. cbn [existsb fst].
  rewrite orb_false_r, !orb_true_iff, !String.eqb_eq. intuition auto.
Qed.






(** ** The choice of target *)

Lemma utext_eqb_eq (a b : utext) : utext_eqb a b = true <-> a = b.
Proof.
  revert b. induction a as [|x a IH]; intros [|y b]; simpl;
    try (split; [discriminate|discriminate]); [tauto|].
  rewrite andb_true_iff, N.eqb_eq, IH.
  split; [intros [-> ->]; reflexivity|intros H; inversion H; auto].
Qed.

(** A text is a key exactly when it is the code points of a key of the
    registry. *)
Lemma key_of_some (u : utext) (k : string) :
  key_of u = Some k -> in_targets k = true /\ code_points k = u.
Proof.
  unfold key_of. intros H. apply find_some in H. destruct H as [Hin Heq].
  apply utext_eqb_eq in Heq. split; [|exact Heq].
  unfold in_targets. apply existsb_exists.
  apply in_map_iff in Hin. destruct Hin as [[k' t] [Hk Hin]].
  cbn [fst] in Hk. subst k'. exists (k, t). split; [exact Hin|].
  cbn [fst]. apply String.eqb_refl.
Qed.

Lemma key_of_code_points (k : string) :
  in_targets k = true -> key_of (code_points k) = Some k.
Proof.
  intros Hk.
  destruct (in_targets_cases k Hk)
    as [->|[->|[->|[->|[->|[->|[->| ->]]]]]]]; reflexivity.
Qed.

Lemma lstrip_spaces (a s : utext) :
  forallb is_space a = true -> lstrip (a ++ s)%list = lstrip s.
Proof.
  induction a as [|c a IH]; simpl; intros H; [reflexivity|].
  apply andb_true_iff in H. destruct H as [Hc Ha]. rewrite Hc. now apply IH.
Qed.

Lemma rstrip_spaces (b : utext) :
  forallb is_space b = true -> rstrip b = [].
Proof.
  induction b as [|c b IH]; simpl; intros H; [reflexivity|].
  apply andb_true_iff in H. destruct H as [Hc Hb].
  now rewrite (IH Hb), Hc.
Qed.

Lemma strip_one_char (d : N) (b : utext) :
  is_space d = false -> forallb is_space b = true ->
  rstrip (lstrip (d :: b)) = [d].
Proof.
  intros Hd Hb. cbn [lstrip]. rewrite Hd. cbn [rstrip].
  now rewrite (rstrip_spaces b Hb), Hd.
Qed.

Lemma strip_key (a b : utext) (k : string) :
  forallb is_space a = true -> forallb is_space b = true ->
  in_targets k = true ->
  strip (a ++ code_points k ++ b)%list = code_points k.
Proof.
  intros Ha Hb Hk. unfold strip. rewrite (lstrip_spaces a _ Ha).
  destruct (in_targets_cases k Hk)
    as [->|[->|[->|[->|[->|[->|[->| ->]]]]]]];
    now apply strip_one_char.
Qed.

(** X15. [pick_target] returns the first line that is a key of the
    registry once the white space around it is stripped, and every line
    before it is not one; it runs out of lines, the [EOFError] of [input],
    exactly when no line is a key. *)
Theorem pick_target_first_key :
  forall lines : list utext,
  match pick_target lines with
  | Some c =>
      in_targets c = true /\
      exists before l after,
        lines = (before ++ l :: after)%list /\
        strip l = code_points c /\
        Forall (fun x => key_of (strip x) = None) before
  | None => Forall (fun x => key_of (strip x) = None) lines
  end.
Proof.
  induction lines as [|l lines IH]; cbn [pick_target].
  - constructor.
  - destruct (key_of (strip l)) as [k|] eqn:Hl.
    + destruct (key_of_some _ _ Hl) as [Hk Hcp].
      split; [exact Hk|]. exists [], l, lines. repeat split; auto.
    + destruct (pick_target lines) as [c|].
      * destruct IH as [Hc [before [l' [after [Hlines [Hs Hb]]]]]].
        split; [exact Hc|].
        exists (l :: before), l', after. subst lines.
        repeat split; auto.
      * now constructor.
Qed.

(** X16. White space typed around a key does not matter, whichever of
    the characters that [str.strip] removes it is made of: a line made of
    a key of the registry between any two runs of such characters is taken
    as that key. *)
Theorem pick_target_strips :
  forall (a b : utext) (k : string) (rest : list utext),
  forallb is_space a = true -> forallb is_space b = true ->
  in_targets k = true ->
  pick_target ((a ++ code_points k ++ b)%list :: rest) = Some k.
Proof.
  intros a b k rest Ha Hb Hk. cbn [pick_target].
  now rewrite (strip_key a b k Ha Hb Hk), (key_of_code_points k Hk).
Qed.

Lemma pick_target_strips_witness :
  pick_target
    (([8195; 32] ++ code_points "1" ++ [12288])%list%N
       :: [code_points "2"]) = Some "1".
Proof.
  apply (pick_target_strips [8195; 32]%N [12288]%N "1" [code_points "2"]);
    reflexivity.
Defined.

(** Other text around a key is not stripped, and the line is skipped. *)
Example pick_target_skips :
  pick_target [code_points "x1"; code_points "12"; [8203; 51]%N;
               code_points " 7"] = Some "7".
Proof. reflexivity. Qed.




(** ** The reader, when there is an input token *)

Lemma occurs_middle (m a l b : string) :
  occurs m l = true -> occurs m (a ++ l ++ b) = true.
Proof.
  rewrite !occurs_spec. intros [x [y ->]].
  exists (a ++ x), (y ++ b). now rewrite !append_assoc.
Qed.

Lemma join_cons (l : string) (L : list string) :
  L <> [] -> join (l :: L) = l ++ nl ++ join L.
Proof. destruct L; [congruence|reflexivity]. Qed.

(** A word that occurs in a line occurs in the joined lines. *)
Lemma join_occurs (m l : string) (L : list string) :
  In l L -> occurs m l = true -> occurs m (join L) = true.
Proof.
  intros Hin Hl. induction L as [|x L IH]; [contradiction|].
  destruct L as [|y L].
  - destruct Hin as [->|[]]. exact Hl.
  - rewrite join_cons by discriminate. destruct Hin as [->|Hin].
    + now apply (occurs_middle m "" l).
    + rewrite <- (append_nil_r (join (y :: L))).
      rewrite <- append_assoc. apply occurs_middle. now apply IH.
Qed.

(** The token loop only appends: the lines of the head stay in front. *)
Ltac appends_step step :=
  intros [ind L] [op n] [more H]; cbn [snd] in *; subst L;
  unfold step, e; cbv zeta; branches; cbn [snd];
  first [ now exists more
        | eexists; rewrite <- app_assoc; reflexivity ].

Lemma loop_keeps_head (step : emit_state -> token -> emit_state)
  (head : list string) :
  (forall st t, (exists more, snd st = head ++ more)%list ->
                (exists more, snd (step st t) = head ++ more)%list) ->
  forall ts ind,
  exists more, (snd (fold_left step ts (ind, head)) = head ++ more)%list.
Proof.
  intros Hstep ts ind.
  apply (fold_left_invariant
           (fun st : emit_state => exists more, snd st = head ++ more)%list).
  - exact Hstep.
  - exists []. cbn [snd]. now rewrite app_nil_r.
Qed.

Lemma head_line_occurs (m l : string) (head more foot : list string) :
  In l head -> occurs m l = true ->
  occurs m (join ((head ++ more) ++ foot)) = true.
Proof.
  intros Hin Hl. apply (join_occurs m l); [|exact Hl].
  apply in_or_app. left. apply in_or_app. now left.
Qed.

(** X18. With an input token in the sequence, the Go, C# and Rust
    programs set up the reader that the translation of the token uses, and
    the Lua and Ruby programs define a [getchar] that reads standard
    input: together with the two theorems on sequences without input
    token, the reader is there exactly when it is needed. *)
Theorem input_token_sets_up_reader :
  forall ts : list token,
  has_input ts = true ->
  occurs "getchar := func() byte {" (emit_go ts) = true /\
  occurs "Stream input = Console.OpenStandardInput();" (emit_csharp ts)
    = true /\
  occurs "let mut getchar = || -> u8 {" (emit_rust ts) = true /\
  occurs "io.read(1)" (emit_lua ts) = true /\
  occurs "$stdin.read(1)" (emit_ruby ts) = true.
Proof.
  intros ts Hin.
  unfold emit_go, emit_csharp, emit_rust, emit_lua, emit_ruby.
  rewrite Hin. repeat split.
  - destruct (loop_keeps_head (step_go true) (go_head true)
                ltac:(appends_step step_go) ts 1%Z) as [more H].
    destruct (fold_left (step_go true) ts (1%Z, go_head true)) as [ind L].
    cbn [snd] in H. subst L. unfold w. rewrite <- app_assoc.
    apply (head_line_occurs _ "    getchar := func() byte {");
      [cbn; tauto|reflexivity].
  - destruct (loop_keeps_head (step_csharp true) (csharp_head true)
                ltac:(appends_step step_csharp) ts 1%Z) as [more H].
    destruct (fold_left (step_csharp true) ts (1%Z, csharp_head true))
      as [ind L].
    cbn [snd] in H. subst L. unfold w. rewrite <- app_assoc.
    apply (head_line_occurs _
             "    Stream input = Console.OpenStandardInput();");
      [cbn; tauto|reflexivity].
  - destruct (loop_keeps_head (step_rust true) (rust_head true)
                ltac:(appends_step step_rust) ts 1%Z) as [more H].
    destruct (fold_left (step_rust true) ts (1%Z, rust_head true))
      as [ind L].
    cbn [snd] in H. subst L. unfold w, e. rewrite <- !app_assoc.
    rewrite (app_assoc (rust_head true)).
    apply (head_line_occurs _
             "    let mut getchar = || -> u8 { match stdin.read(&mut buf) { Ok(1) => buf[0], _ => 0 } };");
      [cbn; tauto|reflexivity].
  - destruct (loop_keeps_head step_lua (lua_head true)
                ltac:(appends_step step_lua) ts 0%Z) as [more H].
    destruct (fold_left step_lua ts (0%Z, lua_head true)) as [ind L].
    cbn [snd] in H. subst L. unfold w.
    apply (head_line_occurs _
             "local function getchar() local c=io.read(1); if c==nil then return 0 else return string.byte(c) end end");
      [cbn; tauto|reflexivity].
  - destruct (loop_keeps_head step_ruby (ruby_head true)
                ltac:(appends_step step_ruby) ts 0%Z) as [more H].
    destruct (fold_left step_ruby ts (0%Z, ruby_head true)) as [ind L].
    cbn [snd] in H. subst L. unfold w.
    apply (head_line_occurs _
             "def getchar; c=$stdin.read(1); c ? c.ord : 0; end");
      [cbn; tauto|reflexivity].
Qed.

Lemma input_token_sets_up_reader_witness :
  occurs "getchar := func() byte {" (emit_go [(",", 1%Z); (".", 1%Z)])
    = true /\
  occurs "Stream input = Console.OpenStandardInput();"
    (emit_csharp [(",", 1%Z); (".", 1%Z)]) = true /\
  occurs "let mut getchar = || -> u8 {"
    (emit_rust [(",", 1%Z); (".", 1%Z)]) = true /\
  occurs "io.read(1)" (emit_lua [(",", 1%Z); (".", 1%Z)]) = true /\
  occurs "$stdin.read(1)" (emit_ruby [(",", 1%Z); (".", 1%Z)]) = true.
Proof.
  apply (input_token_sets_up_reader [(",", 1%Z); (".", 1%Z)]).
  reflexivity.
Defined.

(** ** The command of the run step *)

(** X19. [try_run] runs nothing for an absent or empty template.  For
    any other template its command has as many words as the template, with
    the path of the generated file at the places of [{out}] and every
    other word kept; unless the path is itself [{out}], no placeholder is
    left in the command. *)
Theorem try_run_command :
  forall (tpl : list string) (path : string),
  try_run None path = None /\
  try_run (Some []) path = None /\
  (tpl <> [] ->
   exists cmd, try_run (Some tpl) path = Some cmd /\
     List.length cmd = List.length tpl /\
     (forall i x, nth_error tpl i = Some x ->
        nth_error cmd i = Some (if x =? "{out}" then path else x)) /\
     (path <> "{out}" -> ~ In "{out}" cmd)).
Proof.
  intros tpl path. split; [reflexivity|]. split; [reflexivity|].
  intros Hne. destruct tpl as [|a tpl]; [congruence|].
  eexists. split; [reflexivity|]. split; [apply length_map|]. split.
  - intros i x Hi. rewrite nth_error_map, Hi. reflexivity.
  - intros Hpath Hin. apply in_map_iff in Hin.
    destruct Hin as [x [Hx _]].
    destruct (String.eqb_spec x "{out}") as [E|N]; congruence.
Qed.

Lemma try_run_command_witness :
  exists cmd,
    try_run (Some ["go"; "run"; "{out}"]) "/tmp/a_go.go" = Some cmd /\
    List.length cmd = 3%nat /\
    ~ In "{out}" cmd.
Proof.
  destruct (proj2 (proj2 (try_run_command ["go"; "run"; "{out}"]
                            "/tmp/a_go.go")))
    as [cmd [Hrun [Hlen [_ Hfree]]]]; [discriminate|].
  exists cmd. split; [exact Hrun|]. split; [exact Hlen|].
  apply Hfree. discriminate.
Defined.
